(** * Translate: a shallow embedding of [main.py]

    The program copies a macro-enabled workbook, translates the text cells of
    every sheet through a remote translator (with retries and a per-sheet
    cache) and restores merges and dimensions on the copy.

    Python objects are embedded as follows.
    - [str] is a list of Unicode code points ([pystr]); dictionaries are
      [gmap]s; the worksheet that is read ([ws_source]) is seen through the
      attributes the program reads, the worksheet that is written
      ([ws_target]) through the cells and dimensions the program assigns.
    - The collaborators the program does not own (the translation backend,
      the spreadsheet library where it may reject an operation, the file
      system) are an [environment]: a reply for each interaction, indexed by
      the number of interactions made so far, so that two calls with the same
      argument may behave differently.
    - Effects are explicit: a computation of type [M A] maps a [world] (file
      system, in-memory target workbook, interaction counter, trace of
      observable events, and the record of the calls of [safe_translate],
      which no computation reads) to a result or an exception and a new
      world.
    - [exn] stands for instances of Python's [Exception]; asynchronous
      signals ([KeyboardInterrupt], [SystemExit]) are outside the model, and
      [print] is taken to accept every text.
    - The [tqdm] progress bars only display and are left out. *)

From Stdlib Require Import ZArith List Ascii String Lia.
From stdpp Require Import base tactics option list gmap strings fin_maps.

Open Scope Z_scope.

(** ** Python values *)

(** A Python [str]: the sequence of its code points. *)
Definition pystr := list N.

(** String literals of the program, written in ASCII. *)
Definition py (s : string) : pystr :=
  map N_of_ascii (list_ascii_of_string s).

(** [float] values are never computed on by the program, only copied; they
    are kept as their IEEE-754 binary64 bit pattern. *)
Definition pyfloat := N.

(** What a cell's [value] attribute can hold when a workbook is loaded. *)
Inductive value :=
| VNone
| VBool (b : bool)
| VInt (z : Z)
| VFloat (f : pyfloat)
| VDateTime (stamp : Z)
| VStr (s : pystr).

Global Instance value_eq_dec : EqDecision value.
Proof. solve_decision. Defined.

(** [str.isspace] on one code point (CPython's [_PyUnicode_IsWhitespace]). *)
Definition isspace (c : N) : bool :=
  ((9 <=? c) && (c <=? 13) || (28 <=? c) && (c <=? 32)
   || (c =? 133) || (c =? 160) || (c =? 5760)
   || (8192 <=? c) && (c <=? 8202)
   || (c =? 8232) || (c =? 8233) || (c =? 8239) || (c =? 8287)
   || (c =? 12288))%N.

Fixpoint lstrip (s : pystr) : pystr :=
  match s with
  | [] => []
  | c :: r => if isspace c then lstrip r else s
  end.

Definition rstrip (s : pystr) : pystr := rev (lstrip (rev s)).

(** [s.strip()] *)
Definition strip (s : pystr) : pystr := rstrip (lstrip s).

(** Truth value of a [str]: non-empty. *)
Definition truthy (s : pystr) : bool :=
  match s with [] => false | _ :: _ => true end.

(** [isinstance(value, str) and value.strip()], returning the string when
    the test passes. *)
Definition translatable (v : value) : option pystr :=
  match v with
  | VStr s => if truthy (strip s) then Some s else None
  | _ => None
  end.

(** ** The spreadsheet document model *)

(** [openpyxl] keeps a cell's style as an array of integer identifiers. *)
Definition StyleArray := list Z.

(** The cells that iterating [ws.rows] yields: ordinary cells (anchors of
    merged ranges included) and [MergedCell] placeholders, the non-anchor
    members of a merged range. Both carry their 1-based coordinates. *)
Inductive cell :=
| Cell (row column : positive) (value : value)
       (has_style : bool) (_style : StyleArray)
| MergedCell (row column : positive).

Definition coordinate := (positive * positive)%type.

Definition cell_coordinate (c : cell) : coordinate :=
  match c with
  | Cell r k _ _ _ => (r, k)
  | MergedCell r k => (r, k)
  end.

Definition is_merged (c : cell) : bool :=
  match c with MergedCell _ _ => true | Cell _ _ _ _ _ => false end.

(** A merged range, by its address ([str(merge_range)], e.g. "A1:B2"). *)
Definition range_string := string.

Record ColumnDimension := { width : option pyfloat; col_hidden : bool }.
Record RowDimension := { height : option pyfloat; row_hidden : bool }.

(** The source worksheet, as the program reads it. *)
Record Worksheet := {
  rows : list (list cell);
  column_dimensions : gmap string ColumnDimension;
  row_dimensions : gmap positive RowDimension;
  merged_cells : list range_string
}.

Record Workbook := {
  sheetnames : list pystr;
  worksheets : gmap pystr Worksheet
}.

(** A cell of the target worksheet. *)
Record TargetCell := { t_value : value; t_style : option StyleArray }.

(** The target worksheet, as the program writes it. *)
Record TargetSheet := {
  t_cells : gmap coordinate TargetCell;
  t_column_dimensions : gmap string ColumnDimension;
  t_row_dimensions : gmap positive RowDimension;
  t_merged_cells : list range_string
}.

(** ** Exceptions, the environment and the world *)

Inductive exn :=
| FileNotFoundError
| KeyError
| ValueError
| EnvError (code : N).

Definition path := pystr.
Definition file := list Byte.byte.

(** Operations on collaborators that may be rejected. *)
Inductive operation :=
| Op_taskkill
| Op_remove (p : path)
| Op_copy2 (src dst : path)
| Op_translator (source_lang target_lang : pystr)
| Op_set_value (sheet : pystr) (row column : positive) (v : value)
| Op_merge_cells (sheet : pystr) (r : range_string)
| Op_save (p : path).

Inductive message :=
| Msg_input_file (p : path)
| Msg_output_file (p : path)
| Msg_input_not_found (p : path)
| Msg_copy_error (e : exn)
| Msg_reading (p : path)
| Msg_processing_sheet (current total : nat) (name : pystr)
| Msg_collecting
| Msg_translated (v : pystr) (translated : value)
| Msg_applying
| Msg_restoring_merges
| Msg_warning_merge (r : range_string) (e : exn)
| Msg_restoring_dimensions
| Msg_saving (current total : nat)
| Msg_completed
| Msg_saved_as (p : path)
| Msg_warning_translate (text : pystr) (max_retries : Z) (e : exn)
| Msg_error_processing (e : exn)
| Msg_traceback (e : exn)
| Msg_cleaned_up.

(** Observable events, in the order they happen. *)
Inductive event :=
| Print (m : message)
| Sleep (seconds : Z)
| Remote_translate (text : pystr)
| Called (op : operation).

Global Instance exn_eq_dec : EqDecision exn.
Proof. solve_decision. Defined.
Global Instance operation_eq_dec : EqDecision operation.
Proof. solve_decision. Defined.
Global Instance message_eq_dec : EqDecision message.
Proof. solve_decision. Defined.
Global Instance event_eq_dec : EqDecision event.
Proof. solve_decision. Defined.

Record environment := {
  (** reply of [translator.translate(text)] at a given interaction *)
  translate_reply : nat -> pystr -> exn + value;
  (** whether an operation is rejected at a given interaction *)
  fault : nat -> operation -> option exn;
  (** [load_workbook(input_file, keep_vba=True, data_only=True)] *)
  load_source : file -> exn + Workbook;
  (** [load_workbook(output_file, keep_vba=True)] *)
  load_target : file -> exn + gmap pystr TargetSheet;
  (** what [wb_target.save] writes *)
  serialize : gmap pystr TargetSheet -> file;
  abspath : path -> path;
  splitext : path -> path * path
}.

Record world := {
  fs : gmap path file;
  wb_target : gmap pystr TargetSheet;
  tick : nat;
  trace : list event;
  (** ghost: the arguments [safe_translate] was entered with, in order *)
  invocations : list pystr
}.

Inductive result (A : Type) :=
| Ok (a : A)
| Raise (e : exn).
Arguments Ok {A} a.
Arguments Raise {A} e.

Module Effects.

Definition M (A : Type) : Type := world -> result A * world.

Definition ret {A} (a : A) : M A := fun w => (Ok a, w).

Definition raise {A} (e : exn) : M A := fun w => (Raise e, w).

Definition bind {A B} (m : M A) (f : A -> M B) : M B :=
  fun w => match m w with
           | (Ok a, w1) => f a w1
           | (Raise e, w1) => (Raise e, w1)
           end.

(** [try: m except Exception as e: h e] *)
Definition try_except {A} (m : M A) (h : exn -> M A) : M A :=
  fun w => match m w with
           | (Ok a, w1) => (Ok a, w1)
           | (Raise e, w1) => h e w1
           end.

Definition get {A} (f : world -> A) : M A := fun w => (Ok (f w), w).

Definition modify (f : world -> world) : M unit := fun w => (Ok tt, f w).

End Effects.
Export Effects.

Declare Scope eff_scope.
Delimit Scope eff_scope with eff.
Notation "x <- m ;; k" := (bind m (fun x => k))
  (at level 100, m at next level, right associativity) : eff_scope.
Notation "m ;; k" := (bind m (fun _ => k))
  (at level 100, right associativity) : eff_scope.
Open Scope eff_scope.

(** [for x in l: body x] *)
Fixpoint for_each {A} (l : list A) (body : A -> M unit) : M unit :=
  match l with
  | [] => ret tt
  | x :: r => body x ;; for_each r body
  end.

(** A loop that carries a local variable. *)
Fixpoint for_fold {A S} (l : list A) (body : A -> S -> M S) (s : S) : M S :=
  match l with
  | [] => ret s
  | x :: r => s1 <- body x s ;; for_fold r body s1
  end.

Definition set_fs (f : gmap path file) (w : world) : world :=
  {| fs := f; wb_target := wb_target w; tick := tick w;
     trace := trace w; invocations := invocations w |}.

Definition set_wb_target (t : gmap pystr TargetSheet) (w : world) : world :=
  {| fs := fs w; wb_target := t; tick := tick w;
     trace := trace w; invocations := invocations w |}.

Definition emit (e : event) (w : world) : world :=
  {| fs := fs w; wb_target := wb_target w; tick := tick w;
     trace := trace w ++ [e]; invocations := invocations w |}.

Definition advance (w : world) : world :=
  {| fs := fs w; wb_target := wb_target w; tick := S (tick w);
     trace := trace w; invocations := invocations w |}.

Definition enter (text : pystr) (w : world) : world :=
  {| fs := fs w; wb_target := wb_target w; tick := tick w;
     trace := trace w; invocations := invocations w ++ [text] |}.

Definition print (m : message) : M unit := modify (emit (Print m)).

(** [time.sleep(seconds)]: a negative argument is a [ValueError]. *)
Definition time_sleep (seconds : Z) : M unit :=
  if seconds <? 0 then raise ValueError else modify (emit (Sleep seconds)).

(** [range(n)] *)
Definition range (n : Z) : list Z := map Z.of_nat (seq 0 (Z.to_nat n)).

Section Program.

Variable env : environment.

(** An operation on a collaborator: recorded, then accepted or rejected. *)
Definition call (op : operation) : M unit :=
  fun w =>
    let w1 := advance (emit (Called op) w) in
    match fault env (tick w) op with
    | Some e => (Raise e, w1)
    | None => (Ok tt, w1)
    end.

(** [translator.translate(text)] *)
Definition translator_translate (text : pystr) : M value :=
  fun w =>
    let w1 := advance (emit (Remote_translate text) w) in
    match translate_reply env (tick w) text with
    | inl e => (Raise e, w1)
    | inr v => (Ok v, w1)
    end.

(** How one round of the retry loop ends. *)
Inductive round :=
| Return (v : value)
| Continue.

(** Lines 27-37: the retry loop of [safe_translate], over the remaining
    values of [attempt]. *)
Fixpoint safe_translate_loop (text : pystr) (max_retries delay : Z)
    (attempts : list Z) : M value :=
  match attempts with
  | [] => ret (VStr text)
  | attempt :: rest =>
      r <- try_except
             (translated <- translator_translate text ;;
              time_sleep delay ;;
              ret (Return translated))
             (fun e =>
                if attempt =? max_retries - 1 then
                  print (Msg_warning_translate text max_retries e) ;;
                  ret (Return (VStr text))
                else
                  time_sleep (delay * (attempt + 1)) ;;
                  ret Continue) ;;
      match r with
      | Return v => ret v
      | Continue => safe_translate_loop text max_retries delay rest
      end
  end.

(** Lines 25-37: [safe_translate(translator, text, max_retries, delay)].
    The first step only records the call in [invocations]; the source has
    no counterpart of it. *)
Definition safe_translate (text : pystr) (max_retries delay : Z) : M value :=
  modify (enter text) ;;
  safe_translate_loop text max_retries delay (range max_retries).

(** [kill_excel_processes()]: every failure is swallowed. *)
Definition kill_excel_processes : M unit :=
  try_except (call Op_taskkill ;; time_sleep 2) (fun _ => ret tt).

(** *** The target worksheet *)

Definition new_cell : TargetCell := {| t_value := VNone; t_style := None |}.

Definition set_cells
    (f : gmap coordinate TargetCell -> gmap coordinate TargetCell)
    (ws : TargetSheet) : TargetSheet :=
  {| t_cells := f (t_cells ws);
     t_column_dimensions := t_column_dimensions ws;
     t_row_dimensions := t_row_dimensions ws;
     t_merged_cells := t_merged_cells ws |}.

Definition set_merged (f : list range_string -> list range_string)
    (ws : TargetSheet) : TargetSheet :=
  {| t_cells := t_cells ws;
     t_column_dimensions := t_column_dimensions ws;
     t_row_dimensions := t_row_dimensions ws;
     t_merged_cells := f (t_merged_cells ws) |}.

Definition set_column_dimensions
    (f : gmap string ColumnDimension -> gmap string ColumnDimension)
    (ws : TargetSheet) : TargetSheet :=
  {| t_cells := t_cells ws;
     t_column_dimensions := f (t_column_dimensions ws);
     t_row_dimensions := t_row_dimensions ws;
     t_merged_cells := t_merged_cells ws |}.

Definition set_row_dimensions
    (f : gmap positive RowDimension -> gmap positive RowDimension)
    (ws : TargetSheet) : TargetSheet :=
  {| t_cells := t_cells ws;
     t_column_dimensions := t_column_dimensions ws;
     t_row_dimensions := f (t_row_dimensions ws);
     t_merged_cells := t_merged_cells ws |}.

(** [wb_target[sheet_name]] *)
Definition target_sheet (name : pystr) : M TargetSheet :=
  fun w => match wb_target w !! name with
           | Some ws => (Ok ws, w)
           | None => (Raise KeyError, w)
           end.

(** In-place mutation of the worksheet object [wb_target[name]]. *)
Definition update_target (name : pystr) (f : TargetSheet -> TargetSheet)
    : M unit :=
  modify (fun w => set_wb_target (alter f name (wb_target w)) w).

(** [list.remove]: the first occurrence. *)
Fixpoint remove_first (r : range_string) (l : list range_string)
    : list range_string :=
  match l with
  | [] => []
  | x :: l' => if decide (x = r) then l' else x :: remove_first r l'
  end.

(** [ws_target.unmerge_cells(r)]: a range that is not merged is a
    [ValueError]. The placeholder cells that the library deletes with the
    range, and creates again in [merge_cells], are not kept in [t_cells]:
    the program never reads them. *)
Definition unmerge_cells (name : pystr) (r : range_string) : M unit :=
  ws <- target_sheet name ;;
  if bool_decide (r ∈ t_merged_cells ws)
  then update_target name (set_merged (remove_first r))
  else raise ValueError.

(** [ws_target.merge_cells(r)]: the document model may reject the range;
    an accepted range joins the sheet's merged ranges. *)
Definition merge_cells (name : pystr) (r : range_string) : M unit :=
  call (Op_merge_cells name r) ;;
  update_target name (set_merged (fun l => l ++ [r])).

(** [ws_target.cell(row=.., column=..)]: the cell is created when the sheet
    has none at this coordinate. *)
Definition target_cell (name : pystr) (rc : coordinate) : M unit :=
  update_target name
    (set_cells (fun cs => match cs !! rc with
                          | Some _ => cs
                          | None => <[rc := new_cell]> cs
                          end)).

(** [target_cell.value = v]: the document model may reject the value; an
    accepted value is stored as it is. *)
Definition set_value (name : pystr) (rc : coordinate) (v : value) : M unit :=
  call (Op_set_value name rc.1 rc.2 v) ;;
  update_target name
    (set_cells (alter (fun c => {| t_value := v; t_style := t_style c |}) rc)).

(** [copy_cell_format(source_cell, target_cell)] *)
Definition copy_cell_format (name : pystr) (has_style : bool)
    (_style : StyleArray) (rc : coordinate) : M unit :=
  if has_style then
    update_target name
      (set_cells
         (alter (fun c => {| t_value := t_value c; t_style := Some _style |})
            rc))
  else ret tt.

(** *** The passes over one sheet *)

(** Lines 117-127: the body of the first pass for one cell. *)
Definition collect_cell (c : cell) (translations : gmap pystr value)
    : M (gmap pystr value) :=
  match c with
  | MergedCell _ _ => ret translations
  | Cell _ _ value _ _ =>
      match translatable value with
      | Some s =>
          match translations !! s with
          | Some _ => ret translations
          | None =>
              translated <- safe_translate s 3 1 ;;
              print (Msg_translated s translated) ;;
              ret (<[s := translated]> translations)
          end
      | None => ret translations
      end
  end.

(** Lines 104-127: a fresh dictionary, then the first pass. The count of
    lines 108-111 only sizes the progress bar. *)
Definition collect_pass (ws_source : Worksheet) : M (gmap pystr value) :=
  print Msg_collecting ;;
  for_fold (rows ws_source)
    (fun row translations => for_fold row collect_cell translations) ∅.

(** [translations.get(value, value)] for a translatable value, the value
    itself otherwise (lines 140-144). *)
Definition written_value (translations : gmap pystr value) (v : value)
    : value :=
  match translatable v with
  | Some s => default v (translations !! s)
  | None => v
  end.

(** Lines 132-147: the body of the second pass for one cell. *)
Definition apply_cell (name : pystr) (translations : gmap pystr value)
    (c : cell) : M unit :=
  match c with
  | MergedCell _ _ => ret tt
  | Cell r k value has_style _style =>
      target_cell name (r, k) ;;
      set_value name (r, k) (written_value translations value) ;;
      copy_cell_format name has_style _style (r, k)
  end.

Definition apply_pass (name : pystr) (ws_source : Worksheet)
    (translations : gmap pystr value) : M unit :=
  print Msg_applying ;;
  for_each (rows ws_source)
    (fun row => for_each row (apply_cell name translations)).

(** Lines 149-155. *)
Definition restore_merges (name : pystr) (merged_ranges : list range_string)
    : M unit :=
  print Msg_restoring_merges ;;
  for_each merged_ranges
    (fun merge_range =>
       try_except (merge_cells name merge_range)
         (fun e => print (Msg_warning_merge merge_range e))).

Definition set_width (w : pyfloat) (d : option ColumnDimension)
    : ColumnDimension :=
  match d with
  | Some d => {| width := Some w; col_hidden := col_hidden d |}
  | None => {| width := Some w; col_hidden := false |}
  end.

Definition set_height (h : pyfloat) (d : option RowDimension)
    : RowDimension :=
  match d with
  | Some d => {| height := Some h; row_hidden := row_hidden d |}
  | None => {| height := Some h; row_hidden := false |}
  end.

(** Lines 159-161: [column_dimensions[col]] creates the entry when the
    target has none. *)
Definition restore_widths (column_widths : gmap string (option pyfloat))
    (dims : gmap string ColumnDimension) : gmap string ColumnDimension :=
  map_fold (fun col width dims =>
              match width with
              | Some w => <[col := set_width w (dims !! col)]> dims
              | None => dims
              end) dims column_widths.

(** Lines 162-164. *)
Definition restore_heights (row_heights : gmap positive (option pyfloat))
    (dims : gmap positive RowDimension) : gmap positive RowDimension :=
  map_fold (fun row height dims =>
              match height with
              | Some h => <[row := set_height h (dims !! row)]> dims
              | None => dims
              end) dims row_heights.

Definition restore_layout (name : pystr)
    (column_widths : gmap string (option pyfloat))
    (row_heights : gmap positive (option pyfloat)) : M unit :=
  print Msg_restoring_dimensions ;;
  update_target name (set_column_dimensions (restore_widths column_widths)) ;;
  update_target name (set_row_dimensions (restore_heights row_heights)).

(** *** Files *)

(** [os.path.exists(p)] *)
Definition path_exists (p : path) : M bool :=
  get (fun w => bool_decide (is_Some (fs w !! p))).

(** [os.remove(p)] *)
Definition os_remove (p : path) : M unit :=
  present <- path_exists p ;;
  if present then
    call (Op_remove p) ;;
    modify (fun w => set_fs (delete p (fs w)) w)
  else raise FileNotFoundError.

(** [shutil.copy2(src, dst)] *)
Definition shutil_copy2 (src dst : path) : M unit :=
  content <- get (fun w => fs w !! src) ;;
  match content with
  | Some bytes =>
      call (Op_copy2 src dst) ;;
      modify (fun w => set_fs (<[dst := bytes]> (fs w)) w)
  | None => raise FileNotFoundError
  end.

Definition load_workbook {A} (parse : file -> exn + A) (p : path) : M A :=
  content <- get (fun w => fs w !! p) ;;
  match content with
  | Some bytes =>
      match parse bytes with
      | inl e => raise e
      | inr wb => ret wb
      end
  | None => raise FileNotFoundError
  end.

(** [wb_target.save(output_file)] *)
Definition save (output_file : path) : M unit :=
  call (Op_save output_file) ;;
  modify (fun w =>
            set_fs (<[output_file := serialize env (wb_target w)]> (fs w)) w).

(** *** One sheet (lines 84-168) *)

(** Lines 90-91: [{col: dims[col].width for col in dims}] *)
Definition capture_column_widths (ws_source : Worksheet)
    : gmap string (option pyfloat) :=
  width <$> column_dimensions ws_source.

(** Lines 92-93. *)
Definition capture_row_heights (ws_source : Worksheet)
    : gmap positive (option pyfloat) :=
  height <$> row_dimensions ws_source.

Definition process_sheet (output_file : path) (wb_source : Workbook)
    (total_sheets : nat) (current_sheet : nat) (sheet_name : pystr)
    : M unit :=
  print (Msg_processing_sheet current_sheet total_sheets sheet_name) ;;
  ws_source <- match worksheets wb_source !! sheet_name with
               | Some ws => ret ws
               | None => raise KeyError
               end ;;
  ws_target <- target_sheet sheet_name ;;
  let column_widths := capture_column_widths ws_source in
  let row_heights := capture_row_heights ws_source in
  let merged_ranges := merged_cells ws_source in
  for_each (t_merged_cells ws_target) (unmerge_cells sheet_name) ;;
  translations <- collect_pass ws_source ;;
  apply_pass sheet_name ws_source translations ;;
  restore_merges sheet_name merged_ranges ;;
  restore_layout sheet_name column_widths row_heights ;;
  print (Msg_saving current_sheet total_sheets) ;;
  save output_file.

(** The sheets with the value [current_sheet] has while each is processed. *)
Definition numbered (names : list pystr) : list (nat * pystr) :=
  zip (seq 1 (length names)) names.

(** Lines 83-168: the loop over the sheets. *)
Definition process_sheets (output_file : path) (wb_source : Workbook)
    (total_sheets : nat) (sheets : list (nat * pystr)) : M unit :=
  for_each sheets
    (fun '(current_sheet, sheet_name) =>
       process_sheet output_file wb_source total_sheets current_sheet
         sheet_name).

(** Lines 75-171: the body of the job's [try]. *)
Definition process_workbook (input_file output_file : path) : M unit :=
  wb_source <- load_workbook (load_source env) input_file ;;
  wb <- load_workbook (load_target env) output_file ;;
  modify (set_wb_target wb) ;;
  let total_sheets := length (sheetnames wb_source) in
  process_sheets output_file wb_source total_sheets
    (numbered (sheetnames wb_source)) ;;
  print Msg_completed ;;
  print (Msg_saved_as output_file).

(** Lines 173-183: the job's [except Exception] handler. *)
Definition cleanup (output_file : path) (e : exn) : M unit :=
  print (Msg_error_processing e) ;;
  print (Msg_traceback e) ;;
  present <- path_exists output_file ;;
  if present then
    try_except (os_remove output_file ;; print Msg_cleaned_up)
      (fun _ => ret tt)
  else ret tt.

(** Lines 74-183. *)
Definition guarded_processing (input_file output_file : path) : M unit :=
  try_except (process_workbook input_file output_file) (cleanup output_file).

(** Lines 57-67: [true] when the copy was made. *)
Definition duplicate (input_file output_file : path) : M bool :=
  try_except
    (present <- path_exists output_file ;;
     (if present then os_remove output_file ;; time_sleep 1 else ret tt) ;;
     shutil_copy2 input_file output_file ;;
     ret true)
    (fun e =>
       match e with
       | FileNotFoundError => print (Msg_input_not_found input_file)
       | _ => print (Msg_copy_error e)
       end ;;
       ret false).

(** Lines 44-48: the resolved input and output paths. *)
Definition resolve (input_file : path) (output_file : option path)
    : path * path :=
  let input_file := abspath env input_file in
  match output_file with
  | Some (c :: p) => (input_file, c :: p)
  | _ => let '(base, ext) := splitext env input_file in
         (input_file, base ++ py "_translated" ++ ext)
  end.

(** [translate_excel(input_file, output_file, source_lang, target_lang)] *)
Definition translate_excel (input_file : path) (output_file : option path)
    (source_lang target_lang : pystr) : M unit :=
  let '(input_file, output_file) := resolve input_file output_file in
  kill_excel_processes ;;
  print (Msg_input_file input_file) ;;
  print (Msg_output_file output_file) ;;
  copied <- duplicate input_file output_file ;;
  if copied : bool then
    print (Msg_reading input_file) ;;
    call (Op_translator source_lang target_lang) ;;
    guarded_processing input_file output_file
  else ret tt.

End Program.

(** Lines 108-111: the number of cells the first pass looks up, which sizes
    the progress bar. *)
Definition total_cells (ws_source : Worksheet) : nat :=
  list_sum
    (flat_map
       (fun row =>
          flat_map
            (fun cell =>
               match cell with
               | MergedCell _ _ => []
               | Cell _ _ value _ _ =>
                   match translatable value with
                   | Some _ => [1%nat]
                   | None => []
                   end
               end) row)
       (rows ws_source)).

(** * Vocabulary of the statements *)

Global Instance cell_eq_dec : EqDecision cell.
Proof. solve_decision. Defined.

(** ** Worlds and traces *)

(** The world after [n] interactions that left the events [evs]. *)
Definition later (n : nat) (evs : list event) (w : world) : world :=
  {| fs := fs w; wb_target := wb_target w; tick := (tick w + n)%nat;
     trace := trace w ++ evs; invocations := invocations w |}.

(** The events of the failed attempts [attempts] that are followed by a
    retry: the remote call, then the sleep before the next attempt. *)
Definition backoff_events (text : pystr) (delay : Z) (attempts : list Z)
    : list event :=
  flat_map
    (fun attempt => [Remote_translate text; Sleep (delay * (attempt + 1))])
    attempts.

(** The texts of the remote calls among some events. *)
Definition remote_calls (evs : list event) : list pystr :=
  omap (fun e => match e with
                 | Remote_translate text => Some text
                 | _ => None
                 end) evs.

(** How often the adapter was entered with [v] among the entries [l]. *)
Definition times_entered (v : pystr) (l : list pystr) : nat :=
  length (filter (fun s => s = v) l).

(** [m] relates every world to the world it leaves, whatever its result. *)
Definition preserves {A} (R : relation world) (m : M A) : Prop :=
  ∀ w, R w (m w).2.

(** The observation [f] of the world is left as it was. *)
Definition unchanged {A} (f : world → A) : relation world :=
  fun w w' => f w' = f w.

(** The trace only grew, by events that satisfy [P]. *)
Definition appends (P : event → Prop) : relation world :=
  fun w w' => ∃ evs, trace w' = trace w ++ evs ∧ Forall P evs.

(** The adapter was only entered anew, with texts that satisfy [Q]. *)
Definition enters (Q : pystr → Prop) : relation world :=
  fun w w' => ∃ new, invocations w' = invocations w ++ new ∧ Forall Q new.

(** [R] holds across the event [e], with or without an interaction. *)
Definition admits (R : relation world) (e : event) : Prop :=
  ∀ w, R w (emit e w) ∧ R w (advance (emit e w)).

(** ** The target sheet *)

(** What [h] shows of the target sheet [name], when the workbook has it. *)
Definition observe {A} (name : pystr) (h : TargetSheet → A) (w : world)
    : option A :=
  h <$> wb_target w !! name.

(** The value of the target cell at [rc], when the sheet has one. *)
Definition cell_value (rc : coordinate) (ws : TargetSheet) : option value :=
  t_value <$> t_cells ws !! rc.

(** [R] holds across the in-place update [f] of the sheet [name]. *)
Definition tolerates (R : relation world) (name : pystr)
    (f : TargetSheet → TargetSheet) : Prop :=
  ∀ w, R w (set_wb_target (alter f name (wb_target w)) w).

(** [g] changes the cell store at [rc] only. *)
Definition local_at (rc : coordinate)
    (g : gmap coordinate TargetCell → gmap coordinate TargetCell) : Prop :=
  ∀ cs rc', rc' ≠ rc → g cs !! rc' = cs !! rc'.

(** ** The source sheet and the first pass *)

(** The cells of a sheet in the order the passes visit them. *)
Definition cells (ws : Worksheet) : list cell := concat (rows ws).

(** The text a cell contributes to the first pass, if any. *)
Definition cell_text (c : cell) : option pystr :=
  match c with
  | Cell _ _ value _ _ => translatable value
  | MergedCell _ _ => None
  end.

Definition texts (l : list cell) : list pystr := omap cell_text l.

(** What the first pass over [l], entered with the cache [T], leaves: the
    adapter was entered with the texts [new], once each, and the cache is
    [T'], whose new entries are results of the adapter. *)
Definition collected (env : environment) (T T' : gmap pystr value)
    (l : list cell) (new : list pystr) : Prop :=
  NoDup new
  ∧ (∀ s, s ∈ new ↔ s ∈ texts l ∧ T !! s = None)
  ∧ (∀ s, is_Some (T' !! s) ↔ is_Some (T !! s) ∨ s ∈ texts l)
  ∧ (∀ s t, T !! s = Some t → T' !! s = Some t)
  ∧ (∀ s t, T' !! s = Some t →
            T !! s = Some t ∨ ∃ w0, (safe_translate env s 3 1 w0).1 = Ok t).

(** ** The restoration of merges *)

(** The fate of each range of [M] when re-merged from interaction [t] on:
    the exception of a rejected range, [None] for an accepted one. *)
Fixpoint merge_outcomes (env : environment) (name : pystr) (t : nat)
    (M : list range_string) : list (range_string * option exn) :=
  match M with
  | [] => []
  | r :: M' =>
      (r, fault env t (Op_merge_cells name r))
        :: merge_outcomes env name (S t) M'
  end.

Definition accepted (outcomes : list (range_string * option exn))
    : list range_string :=
  omap (fun '(r, o) => match o with None => Some r | Some _ => None end)
    outcomes.

Definition rejected (outcomes : list (range_string * option exn))
    : list (range_string * exn) :=
  omap (fun '(r, o) => match o with None => None | Some e => Some (r, e) end)
    outcomes.

(** The events of the restoration: every range is tried, and a rejected
    one is followed by its warning. *)
Definition merge_events (name : pystr)
    (outcomes : list (range_string * option exn)) : list event :=
  flat_map (fun '(r, o) =>
              Called (Op_merge_cells name r)
                :: match o with
                   | Some e => [Print (Msg_warning_merge r e)]
                   | None => []
                   end) outcomes.

Definition merge_warning (m : message) : bool :=
  match m with Msg_warning_merge _ _ => true | _ => false end.

(** The merge warnings among some events. *)
Definition merge_warnings (evs : list event) : list (range_string * exn) :=
  omap (fun e => match e with
                 | Print (Msg_warning_merge r e) => Some (r, e)
                 | _ => None
                 end) evs.

(** An event that is not the warning of a rejected merge. *)
Definition not_merge_warning (e : event) : Prop := merge_warnings [e] = [].

(** No write of a cell value and no save is rejected. *)
Definition writes_accepted (env : environment) (output : path) : Prop :=
  (∀ t name r k v, fault env t (Op_set_value name r k v) = None)
  ∧ (∀ t, fault env t (Op_save output) = None).

(** ** The job and its files *)

(** The message of the handlers of lines 62-67 for the exception [e]. *)
Definition copy_failure (input_file : path) (e : exn) : message :=
  match e with
  | FileNotFoundError => Msg_input_not_found input_file
  | _ => Msg_copy_error e
  end.

(** The style of the target cell at [rc]: [None] when the sheet has no
    cell there or the cell has no style. *)
Definition style_at (rc : coordinate) (ws : TargetSheet)
    : option StyleArray :=
  t_cells ws !! rc ≫= t_style.

(** What a computation does to the files when the save of the workbook is
    its last step: the checkpoint is written when it returns, and nothing is
    written when it raises. *)
Definition checkpoints (env : environment) (output : path) {A} (m : M A)
    : Prop :=
  ∀ w, match (m w).1 with
       | Ok _ => fs (m w).2
                 = <[output := serialize env (wb_target (m w).2)]> (fs w)
       | Raise _ => fs (m w).2 = fs w
       end.

(** * Scenarios *)

Module Scenario.

(** "Olá" *)
Definition ola : pystr := [79; 108; 225]%N.
Definition hello : pystr := py "Hello".
Definition erro : pystr := py "Erro".
Definition sheet1_name : pystr := py "Sheet1".
Definition sheet2_name : pystr := py "Sheet2".
Definition book_path : path := py "book.xlsm".
Definition translated_path : path := py "book_translated.xlsm".

(** "Olá" in A1 and C1, 42 in B1, A1:A2 merged (A2 is the placeholder); a
    blank string in B2 and "Erro" in C2; E1:F1 is merged too, outside the
    used cells. Column A is 20 wide; row 1 is hidden with no height set. *)
Definition sheet1 : Worksheet :=
  {| rows := [[Cell 1 1 (VStr ola) true [1]; Cell 1 2 (VInt 42) false [];
               Cell 1 3 (VStr ola) false []];
              [MergedCell 2 1; Cell 2 2 (VStr (py "  ")) false [];
               Cell 2 3 (VStr erro) false []]];
     column_dimensions :=
       {[ "A"%string := {| width := Some 4626322717216342016%N;
                           col_hidden := false |} ]};
     row_dimensions :=
       {[ 1%positive := {| height := None; row_hidden := true |} ]};
     merged_cells := ["A1:A2"%string; "E1:F1"%string] |}.

Definition sheet2 : Worksheet :=
  {| rows := [[Cell 1 1 (VStr ola) false []]];
     column_dimensions := ∅;
     row_dimensions := ∅;
     merged_cells := [] |}.

Definition book : Workbook :=
  {| sheetnames := [sheet1_name; sheet2_name];
     worksheets := {[ sheet1_name := sheet1; sheet2_name := sheet2 ]} |}.

Definition target1 : TargetSheet :=
  {| t_cells :=
       {[ (1%positive, 1%positive) :=
            {| t_value := VStr ola; t_style := None |};
          (2%positive, 1%positive) :=
            {| t_value := VNone; t_style := None |} ]};
     t_column_dimensions := ∅;
     t_row_dimensions :=
       {[ 1%positive := {| height := Some 4624633867356078080%N;
                           row_hidden := true |} ]};
     t_merged_cells := ["A1:A2"%string; "E1:F1"%string] |}.

Definition target2 : TargetSheet :=
  {| t_cells := ∅; t_column_dimensions := ∅; t_row_dimensions := ∅;
     t_merged_cells := [] |}.

Definition target_book : gmap pystr TargetSheet :=
  {[ sheet1_name := target1; sheet2_name := target2 ]}.

(** A translator that knows "Olá" and fails on everything else. *)
Definition stub_translator (n : nat) (text : pystr) : exn + value :=
  if decide (text = ola) then inr (VStr hello) else inl (EnvError 503).

(** A translator that fails on its first call only. *)
Definition flaky_translator (n : nat) (text : pystr) : exn + value :=
  match n with
  | O => inl (EnvError 503)
  | S _ => inr (VStr hello)
  end.

Definition accept_all (n : nat) (op : operation) : option exn := None.

(** The document model rejects the merge of E1:F1. *)
Definition reject_one_merge (n : nat) (op : operation) : option exn :=
  match op with
  | Op_merge_cells _ r =>
      if decide (r = "E1:F1"%string) then Some ValueError else None
  | _ => None
  end.

(** Saving fails, for instance on a full disk. *)
Definition reject_saves (n : nat) (op : operation) : option exn :=
  match op with
  | Op_save _ => Some (EnvError 28)
  | _ => None
  end.

(** The output file is locked by another process: it can be neither
    written nor removed. *)
Definition locked_output (n : nat) (op : operation) : option exn :=
  match op with
  | Op_save _ | Op_remove _ => Some (EnvError 13)
  | _ => None
  end.

Definition environment_with (reply : nat → pystr → exn + value)
    (rejects : nat → operation → option exn) : environment :=
  {| translate_reply := reply;
     fault := rejects;
     load_source := fun _ => inr book;
     load_target := fun _ => inr target_book;
     serialize := fun _ => [];
     abspath := fun p => p;
     splitext := fun p => (take (length p - 5) p, drop (length p - 5) p) |}.

(** Before the job: only the input file exists. *)
Definition start : world :=
  {| fs := {[ book_path := [] ]}; wb_target := ∅; tick := 0; trace := [];
     invocations := [] |}.

(** Both workbooks loaded, before the first sheet. *)
Definition loaded : world :=
  {| fs := {[ book_path := []; translated_path := [] ]};
     wb_target := target_book; tick := 0; trace := []; invocations := [] |}.

(** After the first sheet, with the stub translator and no rejection. *)
Definition after_sheet1 : world :=
  (process_sheet (environment_with stub_translator accept_all)
     translated_path book 2 1 sheet1_name loaded).2.

(** A sheet with a hidden row whose height is not set. *)
Definition hidden_row : Worksheet :=
  {| rows := []; column_dimensions := ∅;
     row_dimensions :=
       {[ 1%positive := {| height := None; row_hidden := true |} ]};
     merged_cells := [] |}.

(** The translation service cannot be reached when the translator is made. *)
Definition reject_translator (n : nat) (op : operation) : option exn :=
  match op with
  | Op_translator _ _ => Some (EnvError 7)
  | _ => None
  end.

End Scenario.

(** * Properties *)

(** ** Blank strings *)

Lemma lstrip_nil_iff s : lstrip s = [] ↔ forallb isspace s = true.
Proof.
  induction s as [|c r IH]; simpl; [done|].
  destruct (isspace c); simpl; [done|]. split; discriminate.
Qed.

Lemma lstrip_head s c r : lstrip s = c :: r → isspace c = false.
Proof.
  induction s as [|d t IH]; simpl; [discriminate|].
  destruct (isspace d) eqn:E; [done|]. intros [= -> ->]. done.
Qed.

Lemma forallb_rev {A} (p : A → bool) l : forallb p (rev l) = forallb p l.
Proof.
  induction l as [|x l IH]; simpl; [done|].
  rewrite forallb_app, IH. simpl. rewrite andb_true_r. apply andb_comm.
Qed.

Lemma strip_nil_iff s : strip s = [] ↔ forallb isspace s = true.
Proof.
  unfold strip, rstrip. rewrite <- lstrip_nil_iff.
  split.
  - intros H. apply (f_equal (@rev N)) in H. rewrite rev_involutive in H.
    simpl in H.
    apply lstrip_nil_iff in H. rewrite forallb_rev in H.
    destruct (lstrip s) as [|c r] eqn:E; [done|].
    apply lstrip_head in E. simpl in H. rewrite E in H. discriminate.
  - intros ->. done.
Qed.

Lemma forallb_false_iff {A} (p : A → bool) l :
  forallb p l = false ↔ ∃ c, c ∈ l ∧ p c = false.
Proof.
  induction l as [|x l IH]; simpl.
  - split; [discriminate|]. intros (c & Hc & _). by apply elem_of_nil in Hc.
  - rewrite andb_false_iff, IH. split.
    + intros [H | (c & Hc & H)]; [exists x | exists c]; split; auto;
        constructor; done.
    + intros (c & Hc & H). apply elem_of_cons in Hc as [-> | Hc]; eauto.
Qed.

Lemma truthy_strip s :
  truthy (strip s) = true ↔ ∃ c, c ∈ s ∧ isspace c = false.
Proof.
  rewrite <- forallb_false_iff.
  destruct (strip s) as [|c r] eqn:E; simpl.
  - apply strip_nil_iff in E. rewrite E. done.
  - destruct (forallb isspace s) eqn:F; [|done].
    apply strip_nil_iff in F. congruence.
Qed.

(** ** The retry loop *)

Section SafeTranslate.
Variable env : environment.
Variables (text : pystr) (max_retries delay : Z).

Lemma range_nonpos n : n <= 0 → range n = [].
Proof. intros H. unfold range. by replace (Z.to_nat n) with 0%nat by lia. Qed.

Lemma range_split (k n : nat) : (k <= n)%nat →
  range (Z.of_nat n) = range (Z.of_nat k) ++ map Z.of_nat (seq k (n - k)).
Proof.
  intros H. unfold range. rewrite !Nat2Z.id, <- map_app, <- seq_app.
  do 2 f_equal. lia.
Qed.

Lemma later_later n1 e1 n2 e2 w :
  later n2 e2 (later n1 e1 w) = later (n1 + n2) (e1 ++ e2) w.
Proof. unfold later; simpl. f_equal; [lia | by rewrite app_assoc]. Qed.

Lemma emit_later e n evs w : emit e (later n evs w) = later n (evs ++ [e]) w.
Proof. unfold emit, later; simpl. by rewrite app_assoc. Qed.

Lemma advance_emit e w : advance (emit e w) = later 1 [e] w.
Proof. unfold emit, advance, later; simpl. f_equal. lia. Qed.

Lemma loop_success attempt rest w v :
  0 <= delay → translate_reply env (tick w) text = inr v →
  safe_translate_loop env text max_retries delay (attempt :: rest) w
  = (Ok v, later 1 [Remote_translate text; Sleep delay] w).
Proof.
  intros Hd Hr. simpl. unfold bind, try_except, translator_translate.
  rewrite Hr. unfold time_sleep.
  destruct (delay <? 0) eqn:E; [lia|]. unfold modify, ret.
  by rewrite advance_emit, emit_later.
Qed.

Lemma loop_last attempt rest w e :
  attempt = max_retries - 1 → translate_reply env (tick w) text = inl e →
  safe_translate_loop env text max_retries delay (attempt :: rest) w
  = (Ok (VStr text),
     later 1 [Remote_translate text;
              Print (Msg_warning_translate text max_retries e)] w).
Proof.
  intros Ha Hr. simpl. unfold bind, try_except, translator_translate.
  rewrite Hr. destruct (attempt =? max_retries - 1) eqn:E; [|lia].
  unfold print, modify, ret. by rewrite advance_emit, emit_later.
Qed.

Lemma loop_retry attempt rest w e :
  0 <= delay → 0 <= attempt → attempt ≠ max_retries - 1 →
  translate_reply env (tick w) text = inl e →
  safe_translate_loop env text max_retries delay (attempt :: rest) w
  = safe_translate_loop env text max_retries delay rest
      (later 1 [Remote_translate text; Sleep (delay * (attempt + 1))] w).
Proof.
  intros Hd H0 Ha Hr. simpl. unfold bind, try_except, translator_translate.
  rewrite Hr. destruct (attempt =? max_retries - 1) eqn:E; [lia|].
  unfold time_sleep.
  destruct (delay * (attempt + 1) <? 0) eqn:F; [nia|].
  unfold modify, ret. by rewrite advance_emit, emit_later.
Qed.

Lemma loop_failures len : ∀ (a : nat) rest w,
  0 <= delay →
  (∀ i, (i < len)%nat →
        ∃ e, translate_reply env (tick w + i) text = inl e) →
  (∀ i, (i < len)%nat → Z.of_nat (a + i) ≠ max_retries - 1) →
  safe_translate_loop env text max_retries delay
    (map Z.of_nat (seq a len) ++ rest) w
  = safe_translate_loop env text max_retries delay rest
      (later len (backoff_events text delay (map Z.of_nat (seq a len))) w).
Proof.
  induction len as [|len IH]; intros a rest w Hd Hf Hm.
  - simpl. f_equal. unfold later. destruct w; simpl. f_equal; [lia|].
    by rewrite app_nil_r.
  - cbn [seq map app]. destruct (Hf 0%nat ltac:(lia)) as [e He].
    rewrite Nat.add_0_r in He.
    rewrite (loop_retry _ _ _ e); [|done|lia| |done].
    2:{ specialize (Hm 0%nat ltac:(lia)). by rewrite Nat.add_0_r in Hm. }
    rewrite IH; [|done| |].
    + rewrite later_later. done.
    + intros i Hi. destruct (Hf (S i) ltac:(lia)) as [e' He'].
      exists e'. simpl. rewrite <- He'. f_equal. lia.
    + intros i Hi. specialize (Hm (S i) ltac:(lia)).
      by replace (S a + i)%nat with (a + S i)%nat by lia.
Qed.

Lemma safe_translate_after_failures (failures : nat) translated w :
  0 <= delay → Z.of_nat failures < max_retries →
  (∀ i, (i < failures)%nat →
        ∃ e, translate_reply env (tick w + i) text = inl e) →
  translate_reply env (tick w + failures) text = inr translated →
  safe_translate env text max_retries delay w
  = (Ok translated,
     later (S failures)
       (backoff_events text delay (range (Z.of_nat failures))
        ++ [Remote_translate text; Sleep delay])
       (enter text w)).
Proof.
  intros Hd Hlt Hf Hs. unfold safe_translate, bind, modify.
  replace max_retries with (Z.of_nat (Z.to_nat max_retries)) at 2 by lia.
  rewrite (range_split failures) by lia.
  destruct (Z.to_nat max_retries - failures)%nat as [|len] eqn:E; [lia|].
  cbn [seq map]. unfold range at 1. rewrite Nat2Z.id.
  rewrite loop_failures; [|done|exact Hf|intros i Hi; simpl; lia].
  rewrite (loop_success _ _ _ translated); [|done|exact Hs].
  rewrite later_later. unfold range. rewrite Nat2Z.id.
  do 2 f_equal. lia.
Qed.

Lemma safe_translate_all_fail w :
  0 <= delay → 0 < max_retries →
  (∀ i, (i < Z.to_nat max_retries)%nat →
        ∃ e, translate_reply env (tick w + i) text = inl e) →
  ∃ e, translate_reply env (tick w + Z.to_nat (max_retries - 1)) text = inl e
       ∧ safe_translate env text max_retries delay w
         = (Ok (VStr text),
            later (Z.to_nat max_retries)
              (backoff_events text delay (range (max_retries - 1))
               ++ [Remote_translate text;
                   Print (Msg_warning_translate text max_retries e)])
              (enter text w)).
Proof.
  intros Hd Hm Hf.
  destruct (Hf (Z.to_nat (max_retries - 1)) ltac:(lia)) as [e He].
  exists e. split; [done|]. unfold safe_translate, bind, modify.
  replace max_retries with (Z.of_nat (Z.to_nat max_retries)) at 2 by lia.
  rewrite (range_split (Z.to_nat (max_retries - 1))) by lia.
  replace (Z.to_nat max_retries - Z.to_nat (max_retries - 1))%nat
    with 1%nat by lia.
  cbn [seq map]. replace (Z.of_nat (Z.to_nat (max_retries - 1)))
    with (max_retries - 1) by lia.
  unfold range at 1.
  rewrite loop_failures; [|done| |intros i Hi; simpl; lia].
  2:{ intros i Hi. apply Hf. lia. }
  rewrite (loop_last _ _ _ e); [|lia|exact He].
  rewrite later_later. unfold range. do 2 f_equal. lia.
Qed.

End SafeTranslate.

(** ** Preservation *)

Global Instance unchanged_preorder {A} (f : world → A) :
  PreOrder (unchanged f).
Proof.
  split; [by intros w | intros w1 w2 w3 H1 H2].
  unfold unchanged in *. congruence.
Qed.

Global Instance appends_preorder P : PreOrder (appends P).
Proof.
  split.
  - intros w. exists []. by rewrite app_nil_r.
  - intros w1 w2 w3 (e1 & H1 & F1) (e2 & H2 & F2). exists (e1 ++ e2).
    rewrite H2, H1, app_assoc. split; [done | by apply Forall_app].
Qed.

Lemma appends_emit (P : event → Prop) e w : P e → appends P w (emit e w).
Proof. intros H. exists [e]. split; [done | by constructor]. Qed.

Lemma appends_advance_emit (P : event → Prop) e w :
  P e → appends P w (advance (emit e w)).
Proof. intros H. exists [e]. split; [done | by constructor]. Qed.

Section Preserve.
Context (R : relation world) `{!PreOrder R}.

Lemma preserves_ret {A} (a : A) : preserves R (ret a).
Proof. intros w. simpl. reflexivity. Qed.

Lemma preserves_raise {A} e : preserves R (@raise A e).
Proof. intros w. simpl. reflexivity. Qed.

Lemma preserves_get {A} (f : world → A) : preserves R (get f).
Proof. intros w. simpl. reflexivity. Qed.

Lemma preserves_modify f : (∀ w, R w (f w)) → preserves R (modify f).
Proof. intros H w. apply H. Qed.

Lemma preserves_bind {A B} (m : M A) (f : A → M B) :
  preserves R m → (∀ a, preserves R (f a)) → preserves R (bind m f).
Proof.
  intros Hm Hf w. unfold bind. specialize (Hm w).
  destruct (m w) as [[a|e] w1]; simpl in *; [|done].
  etrans; [exact Hm | apply Hf].
Qed.

Lemma preserves_try_except {A} (m : M A) h :
  preserves R m → (∀ e, preserves R (h e)) → preserves R (try_except m h).
Proof.
  intros Hm Hh w. unfold try_except. specialize (Hm w).
  destruct (m w) as [[a|e] w1]; simpl in *; [done|].
  etrans; [exact Hm | apply Hh].
Qed.

Lemma preserves_for_each {A} (l : list A) body :
  (∀ x, x ∈ l → preserves R (body x)) → preserves R (for_each l body).
Proof.
  induction l as [|x l IH]; intros H; simpl.
  - apply preserves_ret.
  - apply preserves_bind; [apply H; left | intros _; apply IH].
    intros y Hy. apply H. by right.
Qed.

Lemma preserves_for_fold {A S} (l : list A) (body : A → S → M S) :
  (∀ x s, x ∈ l → preserves R (body x s)) →
  ∀ s, preserves R (for_fold l body s).
Proof.
  induction l as [|x l IH]; intros H s; simpl.
  - apply preserves_ret.
  - apply preserves_bind; [apply H; left | intros s1; apply IH].
    intros y s2 Hy. apply H. by right.
Qed.

Lemma preserves_print m :
  (∀ w, R w (emit (Print m) w)) → preserves R (print m).
Proof. intros H. by apply preserves_modify. Qed.

Lemma preserves_time_sleep d :
  (∀ w, R w (emit (Sleep d) w)) → preserves R (time_sleep d).
Proof.
  intros H. unfold time_sleep. destruct (d <? 0).
  - apply preserves_raise.
  - by apply preserves_modify.
Qed.

Lemma preserves_call env op :
  (∀ w, R w (advance (emit (Called op) w))) → preserves R (call env op).
Proof. intros H w. unfold call. destruct (fault env (tick w) op); apply H. Qed.

Lemma preserves_translator_translate env text :
  (∀ w, R w (advance (emit (Remote_translate text) w))) →
  preserves R (translator_translate env text).
Proof.
  intros H w. unfold translator_translate.
  destruct (translate_reply env (tick w) text); apply H.
Qed.

Lemma preserves_target_sheet name : preserves R (target_sheet name).
Proof.
  intros w. unfold target_sheet.
  destruct (wb_target w !! name); simpl; reflexivity.
Qed.

End Preserve.

(** One structural step of a preservation proof. *)
Ltac preserve_step :=
  first
    [ apply preserves_ret; exact _
    | apply preserves_raise; exact _
    | apply preserves_get; exact _
    | apply preserves_target_sheet; exact _
    | apply preserves_bind; [exact _ | | intros ?]
    | apply preserves_try_except; [exact _ | | intros ?]
    | apply preserves_print
    | apply preserves_time_sleep; [exact _ |]
    | apply preserves_call
    | apply preserves_translator_translate
    | apply preserves_modify ].

Lemma bind_ret {A B} (a : A) (f : A → M B) : bind (ret a) f = f a.
Proof. reflexivity. Qed.

Lemma bind_ok {A B} (m : M A) (f : A → M B) w b w' :
  bind m f w = (Ok b, w') →
  ∃ a w1, m w = (Ok a, w1) ∧ f a w1 = (Ok b, w').
Proof.
  unfold bind. destruct (m w) as [[a|e] w1]; [eauto | discriminate].
Qed.

Lemma for_each_app {A} (l1 l2 : list A) body w :
  for_each (l1 ++ l2) body w = (for_each l1 body ;; for_each l2 body) w.
Proof.
  revert w. induction l1 as [|x l1 IH]; intros w; [done|].
  simpl. unfold bind in *. destruct (body x w) as [[[]|e] w1]; [apply IH|done].
Qed.

Lemma for_each_concat {A} (ls : list (list A)) body w :
  for_each ls (fun l => for_each l body) w = for_each (concat ls) body w.
Proof.
  revert w. induction ls as [|l ls IH]; intros w; [done|].
  simpl. rewrite for_each_app. unfold bind.
  destruct (for_each l body w) as [[[]|e] w1]; [apply IH|done].
Qed.

Lemma for_fold_app {A S} (l1 l2 : list A) (body : A → S → M S) s w :
  for_fold (l1 ++ l2) body s w
  = (s1 <- for_fold l1 body s ;; for_fold l2 body s1) w.
Proof.
  revert s w. induction l1 as [|x l1 IH]; intros s w; [done|].
  simpl. unfold bind in *.
  destruct (body x s w) as [[s1|e] w1]; [apply IH|done].
Qed.

Lemma for_fold_concat {A S} (ls : list (list A)) (body : A → S → M S) s w :
  for_fold ls (fun l s => for_fold l body s) s w
  = for_fold (concat ls) body s w.
Proof.
  revert s w. induction ls as [|l ls IH]; intros s w; [done|].
  simpl. rewrite for_fold_app. unfold bind.
  destruct (for_fold l body s w) as [[s1|e] w1]; [apply IH|done].
Qed.

(** ** The first pass *)

Lemma admits_unchanged {A} (f : world → A) e :
  (∀ w, f (emit e w) = f w) → (∀ w, f (advance w) = f w) →
  admits (unchanged f) e.
Proof.
  intros H1 H2 w. unfold unchanged. split; [done|]. by rewrite H2.
Qed.

Lemma admits_appends (P : event → Prop) e : P e → admits (appends P) e.
Proof.
  intros H w. split; [by apply appends_emit | by apply appends_advance_emit].
Qed.

Section Collect.
Variable env : environment.

Section Frame.
Context (R : relation world) `{!PreOrder R}.

Lemma preserves_safe_translate_loop text m d attempts :
  admits R (Remote_translate text) → (∀ s, admits R (Sleep s)) →
  (∀ e, admits R (Print (Msg_warning_translate text m e))) →
  preserves R (safe_translate_loop env text m d attempts).
Proof.
  intros Hr Hs Hp. induction attempts as [|a l IH]; simpl.
  - preserve_step.
  - preserve_step; [|destruct a0; [preserve_step | done]].
    preserve_step; [repeat preserve_step; apply Hr || apply Hs|].
    destruct (a =? m - 1); repeat preserve_step; apply Hp || apply Hs.
Qed.

Lemma preserves_safe_translate text m d :
  (∀ w, R w (enter text w)) →
  admits R (Remote_translate text) → (∀ s, admits R (Sleep s)) →
  (∀ e, admits R (Print (Msg_warning_translate text m e))) →
  preserves R (safe_translate env text m d).
Proof.
  intros He Hr Hs Hp. preserve_step; [by preserve_step|].
  by apply preserves_safe_translate_loop.
Qed.

End Frame.

Lemma safe_translate_loop_total text m d attempts w :
  0 <= d → Forall (fun a => 0 <= a) attempts →
  ∃ t w', safe_translate_loop env text m d attempts w = (Ok t, w').
Proof.
  intros Hd Ha. revert w. induction Ha as [|a l H0 Ha IH]; intros w.
  - by eexists _, _.
  - destruct (translate_reply env (tick w) text) as [e|v] eqn:E.
    + destruct (decide (a = m - 1)) as [Hm|Hm].
      * rewrite (loop_last _ _ _ _ _ _ _ e) by done. by eexists _, _.
      * rewrite (loop_retry _ _ _ _ _ _ _ e) by done. apply IH.
    + rewrite (loop_success _ _ _ _ _ _ _ v) by done. by eexists _, _.
Qed.

Lemma range_nonneg n : Forall (fun a => 0 <= a) (range n).
Proof.
  unfold range. apply Forall_forall. intros a Ha.
  apply list_elem_of_In, in_map_iff in Ha as (k & <- & _). lia.
Qed.

(** With the default arguments the adapter always returns. *)
Lemma safe_translate_default s w :
  ∃ t w', safe_translate env s 3 1 w = (Ok t, w')
          ∧ invocations w' = invocations w ++ [s].
Proof.
  unfold safe_translate, bind, modify.
  destruct (safe_translate_loop_total s 3 1 (range 3) (enter s w))
    as (t & w' & H); [lia | apply range_nonneg |].
  exists t, w'. split; [done|].
  pose proof (preserves_safe_translate_loop (unchanged invocations) s 3 1
                (range 3)) as Hp.
  specialize (Hp ltac:(by apply admits_unchanged)
                 ltac:(intros; by apply admits_unchanged)
                 ltac:(intros; by apply admits_unchanged) (enter s w)).
  rewrite H in Hp. exact Hp.
Qed.

Lemma collect_cells_spec l : ∀ T w,
  ∃ T' w' new,
    for_fold l (collect_cell env) T w = (Ok T', w')
    ∧ invocations w' = invocations w ++ new
    ∧ collected env T T' l new.
Proof.
  induction l as [|c l IH]; intros T w.
  - exists T, w, []. split; [done|]. split; [by rewrite app_nil_r|].
    unfold collected, texts; simpl. split; [constructor|].
    split; [intros s; rewrite !elem_of_nil; tauto|].
    split; [intros s; rewrite elem_of_nil; tauto|]. split; auto.
  - simpl. unfold bind.
    destruct (cell_text c) as [s|] eqn:Hc; cycle 1.
    { assert (collect_cell env c T w = (Ok T, w)) as ->.
      { destruct c as [r k v hs st|r k]; simpl in *; [|done]. by rewrite Hc. }
      destruct (IH T w) as (T' & w' & new & H1 & H2 & H3).
      exists T', w', new. split; [done|]. split; [done|].
      unfold collected, texts in *. simpl. by rewrite Hc. }
    destruct (T !! s) as [t0|] eqn:HT.
    { assert (collect_cell env c T w = (Ok T, w)) as ->.
      { destruct c as [r k v hs st|r k]; simpl in *; [|done].
        by rewrite Hc, HT. }
      destruct (IH T w)
        as (T' & w' & new & H1 & H2 & Hn & Hnew & Hdom & Hkeep & Hval).
      exists T', w', new. split; [done|]. split; [done|].
      unfold collected, texts in *. simpl. rewrite Hc.
      split; [done|]. split; [|split; [|done]].
      - intros s'. rewrite Hnew, elem_of_cons. split; [tauto|].
        intros [[->|?] ?]; [congruence | tauto].
      - intros s'. rewrite Hdom, elem_of_cons. split; [tauto|].
        intros [?|[->|?]]; [tauto | left; by rewrite HT | tauto]. }
    destruct (safe_translate_default s w) as (t & w1 & Hs & Hi).
    assert (collect_cell env c T w
            = (Ok (<[s:=t]> T), emit (Print (Msg_translated s t)) w1)) as ->.
    { destruct c as [r k v hs st|r k]; simpl in *; [|done].
      rewrite Hc, HT. unfold bind. by rewrite Hs. }
    destruct (IH (<[s:=t]> T) (emit (Print (Msg_translated s t)) w1))
      as (T' & w' & new & H1 & H2 & Hn & Hnew & Hdom & Hkeep & Hval).
    exists T', w', (s :: new). split; [done|].
    split; [simpl in H2; rewrite H2, Hi, <- app_assoc; done|].
    unfold collected, texts in *. simpl. rewrite Hc.
    split; [|split; [|split; [|split]]].
    + constructor; [|done]. rewrite Hnew, lookup_insert_eq. intros [_ ?]. done.
    + intros s'. rewrite !elem_of_cons, Hnew.
      destruct (decide (s' = s)) as [->|Hne].
      * rewrite lookup_insert_eq. split; [tauto|]. intros _. by left.
      * rewrite lookup_insert_ne by done. split; [tauto|].
        intros [[?|?] ?]; [done | tauto].
    + intros s'. rewrite Hdom, elem_of_cons.
      destruct (decide (s' = s)) as [->|Hne].
      * rewrite lookup_insert_eq. split; [intros _; right; by left|].
        intros _. left. by eexists.
      * rewrite lookup_insert_ne by done. split; [tauto|].
        intros [?|[?|?]]; [tauto | done | tauto].
    + intros s' t' H'. apply Hkeep.
      destruct (decide (s' = s)) as [->|Hne]; [congruence|].
      by rewrite lookup_insert_ne.
    + intros s' t' H'. destruct (Hval s' t' H') as [Hin|?]; [|by right].
      destruct (decide (s' = s)) as [->|Hne].
      * rewrite lookup_insert_eq in Hin. injection Hin as <-.
        right. exists w. by rewrite Hs.
      * rewrite lookup_insert_ne in Hin by done. by left.
Qed.

End Collect.

(** ** Footprints of the phases *)

Global Instance enters_preorder Q : PreOrder (enters Q).
Proof.
  split.
  - intros w. exists []. by rewrite app_nil_r.
  - intros w1 w2 w3 (e1 & H1 & F1) (e2 & H2 & F2). exists (e1 ++ e2).
    rewrite H2, H1, app_assoc. split; [done | by apply Forall_app].
Qed.

Lemma appends_same_trace P w w' : trace w' = trace w → appends P w w'.
Proof. intros H. exists []. by rewrite app_nil_r. Qed.

Lemma enters_same Q w w' : invocations w' = invocations w → enters Q w w'.
Proof. intros H. exists []. by rewrite app_nil_r. Qed.

Lemma observe_update {A} name name' (h : TargetSheet → A) f w :
  (∀ ws, h (f ws) = h ws) →
  observe name h (set_wb_target (alter f name' (wb_target w)) w)
  = observe name h w.
Proof.
  intros H. unfold observe; simpl.
  destruct (decide (name' = name)) as [->|Hne].
  - rewrite lookup_alter_eq, <- option_fmap_compose.
    by apply option_fmap_ext.
  - by rewrite lookup_alter_ne.
Qed.

Lemma tolerates_observe {A} name name' (h : TargetSheet → A) f :
  (∀ ws, h (f ws) = h ws) → tolerates (unchanged (observe name h)) name' f.
Proof. intros H w. by apply observe_update. Qed.

(** Side conditions of preservation for an observation of the target. *)
Ltac same :=
  intros;
  first [ apply admits_unchanged; intros; reflexivity
        | apply tolerates_observe; intros; reflexivity
        | unfold tolerates, unchanged; intros; reflexivity ].

Section Footprint.
Context (R : relation world) `{!PreOrder R}.
Variable env : environment.
Variable name : pystr.

Lemma preserves_update_target f :
  tolerates R name f → preserves R (update_target name f).
Proof. intros H. by apply preserves_modify. Qed.

Lemma preserves_unmerge_cells r :
  (∀ g, tolerates R name (set_merged g)) →
  preserves R (unmerge_cells name r).
Proof.
  intros H. unfold unmerge_cells. preserve_step; [preserve_step|].
  case_bool_decide; [by apply preserves_update_target | preserve_step].
Qed.

Lemma preserves_merge_cells r :
  admits R (Called (Op_merge_cells name r)) →
  (∀ g, tolerates R name (set_merged g)) →
  preserves R (merge_cells env name r).
Proof.
  intros H1 H2. unfold merge_cells. preserve_step.
  - preserve_step. apply H1.
  - by apply preserves_update_target.
Qed.

Hypothesis R_print : ∀ m, merge_warning m = false → admits R (Print m).

Lemma preserves_restore_merges M :
  (∀ r e, admits R (Print (Msg_warning_merge r e))) →
  (∀ r, admits R (Called (Op_merge_cells name r))) →
  (∀ g, tolerates R name (set_merged g)) →
  preserves R (restore_merges env name M).
Proof.
  intros H0 H1 H2. unfold restore_merges.
  preserve_step; [preserve_step; by apply R_print|].
  apply preserves_for_each; [exact _|]. intros r _.
  preserve_step; [by apply preserves_merge_cells|].
  preserve_step. apply H0.
Qed.

Lemma preserves_restore_layout W H :
  (∀ g, tolerates R name (set_column_dimensions g)) →
  (∀ g, tolerates R name (set_row_dimensions g)) →
  preserves R (restore_layout name W H).
Proof.
  intros H1 H2. unfold restore_layout.
  preserve_step; [preserve_step; by apply R_print|].
  preserve_step; by apply preserves_update_target.
Qed.

Lemma preserves_save output :
  admits R (Called (Op_save output)) → (∀ f w, R w (set_fs f w)) →
  preserves R (save env output).
Proof.
  intros H1 H2. unfold save. preserve_step; preserve_step; [apply H1|].
  intros w. apply H2.
Qed.

Lemma preserves_apply_cell T c :
  (is_merged c = false →
   (∀ v, admits R (Called (Op_set_value name (cell_coordinate c).1
                             (cell_coordinate c).2 v)))
   ∧ (∀ g, local_at (cell_coordinate c) g →
           tolerates R name (set_cells g))) →
  preserves R (apply_cell env name T c).
Proof.
  intros H. destruct c as [r k v hs st|r k]; cbn [apply_cell]; [|preserve_step].
  destruct (H eq_refl) as [H1 H2]. cbn [cell_coordinate fst snd] in *.
  preserve_step; [|preserve_step].
  - apply preserves_update_target, H2. intros cs rc' Hne.
    cbv beta. case_match; [done | by rewrite lookup_insert_ne].
  - preserve_step; [preserve_step; apply H1|].
    apply preserves_update_target, H2. intros cs rc' Hne.
    by rewrite lookup_alter_ne.
  - unfold copy_cell_format. destruct hs; [|preserve_step].
    apply preserves_update_target, H2. intros cs rc' Hne.
    by rewrite lookup_alter_ne.
Qed.

Lemma preserves_apply_cells T l :
  (∀ c, c ∈ l → is_merged c = false →
   (∀ v, admits R (Called (Op_set_value name (cell_coordinate c).1
                             (cell_coordinate c).2 v)))
   ∧ (∀ g, local_at (cell_coordinate c) g →
           tolerates R name (set_cells g))) →
  preserves R (for_each l (apply_cell env name T)).
Proof.
  intros H. apply preserves_for_each; [exact _|]. intros c Hc.
  apply preserves_apply_cell. by apply H.
Qed.

Lemma preserves_apply_pass T ws :
  (∀ c, c ∈ cells ws → is_merged c = false →
   (∀ v, admits R (Called (Op_set_value name (cell_coordinate c).1
                             (cell_coordinate c).2 v)))
   ∧ (∀ g, local_at (cell_coordinate c) g →
           tolerates R name (set_cells g))) →
  preserves R (apply_pass env name ws T).
Proof.
  intros H. unfold apply_pass.
  preserve_step; [preserve_step; by apply R_print|].
  intros w. rewrite for_each_concat. by apply preserves_apply_cells.
Qed.

Hypothesis R_sleep : ∀ d, admits R (Sleep d).

Lemma preserves_collect_cell c T :
  (∀ s, cell_text c = Some s →
        admits R (Remote_translate s) ∧ ∀ w, R w (enter s w)) →
  preserves R (collect_cell env c T).
Proof.
  intros H. destruct c as [r k v hs st|r k]; cbn [collect_cell cell_text] in *;
    [|preserve_step].
  destruct (translatable v) as [s|]; [|preserve_step].
  destruct (H s eq_refl) as [H1 H2].
  destruct (T !! s); [preserve_step|].
  preserve_step.
  { apply preserves_safe_translate; try done. intros e. by apply R_print. }
  preserve_step; [preserve_step; by apply R_print | preserve_step].
Qed.

Lemma preserves_collect_pass ws :
  (∀ s, s ∈ texts (cells ws) →
        admits R (Remote_translate s) ∧ ∀ w, R w (enter s w)) →
  preserves R (collect_pass env ws).
Proof.
  intros H. unfold collect_pass.
  preserve_step; [preserve_step; by apply R_print|].
  intros w. rewrite for_fold_concat. revert w.
  apply preserves_for_fold; [exact _|]. intros c T Hc.
  apply preserves_collect_cell. intros s Hs. apply H.
  apply list_elem_of_omap. eauto.
Qed.

End Footprint.

(** ** The phases of a sheet *)

Section Phases.
Variable env : environment.
Variable name : pystr.

Lemma unmerge_all L : ∀ w,
  observe name t_merged_cells w = Some L →
  ∃ w', for_each L (unmerge_cells name) w = (Ok tt, w')
        ∧ observe name t_merged_cells w' = Some [].
Proof.
  induction L as [|r L IH]; intros w Hw; [by exists w|].
  unfold observe in Hw. destruct (wb_target w !! name) as [ws|] eqn:E; [|done].
  injection Hw as Hw.
  cbn [for_each]. unfold bind at 1, unmerge_cells at 1, bind at 1, target_sheet.
  rewrite E, Hw. rewrite bool_decide_true by left.
  unfold update_target, modify. apply IH.
  unfold observe; simpl. rewrite lookup_alter_eq, E. simpl. rewrite Hw. simpl.
  by rewrite decide_True.
Qed.

Lemma apply_cell_value T r k v hs st w w' :
  apply_cell env name T (Cell r k v hs st) w = (Ok tt, w') →
  is_Some (wb_target w !! name) →
  observe name (cell_value (r, k)) w' = Some (Some (written_value T v)).
Proof.
  intros H [ws E]. unfold apply_cell, bind, target_cell, set_value, bind, call,
    update_target, modify, copy_cell_format in H. simpl in H.
  destruct (fault env _ _); simpl in H; [discriminate|].
  unfold observe, cell_value.
  destruct hs; injection H as <-; simpl; rewrite !lookup_alter_eq, E; simpl;
    rewrite !lookup_alter_eq; case_match eqn:F;
    rewrite ?lookup_insert_eq, ?F; done.
Qed.

Lemma apply_cell_present T c w :
  is_Some (wb_target w !! name) →
  is_Some (wb_target (apply_cell env name T c w).2 !! name).
Proof.
  intros [ws E].
  assert (observe name (fun _ => tt) (apply_cell env name T c w).2
          = observe name (fun _ => tt) w) as Hq.
  { apply (preserves_apply_cell (unchanged (observe name (fun _ => tt)))).
    intros _. split; same. }
  unfold observe in Hq. rewrite E in Hq.
  apply (fmap_is_Some (fun _ => tt)). rewrite Hq. by eexists.
Qed.

Lemma apply_cells_values T l : ∀ w w',
  for_each l (apply_cell env name T) w = (Ok tt, w') →
  is_Some (wb_target w !! name) →
  NoDup (cell_coordinate <$> l) →
  ∀ r k v hs st, Cell r k v hs st ∈ l →
     observe name (cell_value (r, k)) w' = Some (Some (written_value T v)).
Proof.
  induction l as [|c l IH]; intros w w' H Hw Hnd r k v hs st Hin.
  - by apply elem_of_nil in Hin.
  - cbn [for_each] in H. apply bind_ok in H as ([] & w1 & H1 & H2).
    rewrite fmap_cons in Hnd. apply NoDup_cons in Hnd as [Hc Hnd].
    assert (is_Some (wb_target w1 !! name)) as Hw1.
    { pose proof (apply_cell_present T c w Hw) as Hp. by rewrite H1 in Hp. }
    apply elem_of_cons in Hin as [<-|Hin]; [|by eapply IH].
    apply (apply_cell_value _ _ _ _ _ _ _ _ H1) in Hw.
    rewrite <- Hw.
    pose proof (preserves_apply_cells
                  (unchanged (observe name (cell_value (r, k))))
                  env name T l) as Hp.
    specialize (fun H => Hp H w1). rewrite H2 in Hp. apply Hp.
    intros c' Hc' Hm. split; [same|]. intros g Hg.
    apply tolerates_observe. intros ws. unfold cell_value; simpl.
    rewrite Hg; [done|]. intros Heq. apply Hc. cbn [cell_coordinate].
    rewrite Heq. apply list_elem_of_fmap. by exists c'.
Qed.

Lemma merge_loop M : ∀ w,
  ∃ w', for_each M
          (fun r => try_except (merge_cells env name r)
                      (fun e => print (Msg_warning_merge r e))) w
        = (Ok tt, w')
      ∧ trace w' = trace w
                   ++ merge_events name (merge_outcomes env name (tick w) M)
      ∧ tick w' = (tick w + length M)%nat
      ∧ observe name t_merged_cells w'
        = (fun L => L ++ accepted (merge_outcomes env name (tick w) M))
            <$> observe name t_merged_cells w.
Proof.
  induction M as [|r M IH]; intros w.
  - exists w. split; [done|]. simpl. rewrite app_nil_r, Nat.add_0_r.
    split; [done|]. split; [done|]. unfold accepted; simpl.
    destruct (observe _ _ w); simpl; by rewrite ?app_nil_r.
  - cbn [for_each merge_outcomes]. unfold bind at 1, try_except at 1,
      merge_cells at 1, bind at 1, call at 1.
    destruct (fault env (tick w) (Op_merge_cells name r)) as [e|] eqn:E.
    + unfold print, modify.
      destruct (IH (emit (Print (Msg_warning_merge r e))
                      (advance (emit (Called (Op_merge_cells name r)) w))))
        as (w' & H1 & H2 & H3 & H4).
      exists w'. split; [done|]. simpl in *.
      rewrite H2, H3, H4, <- !app_assoc. split; [done|]. split; [lia|]. done.
    + unfold update_target, modify.
      match goal with |- ∃ _, for_each _ _ ?w1 = _ ∧ _ =>
        destruct (IH w1) as (w' & H1 & H2 & H3 & H4) end.
      exists w'. split; [done|]. simpl in *.
      rewrite H2, H3, H4, <- !app_assoc. split; [done|]. split; [lia|].
      unfold observe; simpl. rewrite lookup_alter_eq.
      destruct (wb_target w !! name); simpl; [|done].
      by rewrite <- app_assoc.
Qed.

Lemma restore_merges_spec M w :
  ∃ w', restore_merges env name M w = (Ok tt, w')
      ∧ trace w' = trace w
                   ++ Print Msg_restoring_merges
                      :: merge_events name (merge_outcomes env name (tick w) M)
      ∧ tick w' = (tick w + length M)%nat
      ∧ observe name t_merged_cells w'
        = (fun L => L ++ accepted (merge_outcomes env name (tick w) M))
            <$> observe name t_merged_cells w.
Proof.
  unfold restore_merges, bind, print, modify.
  destruct (merge_loop M (emit (Print Msg_restoring_merges) w))
    as (w' & H1 & H2 & H3 & H4).
  exists w'. split; [done|]. simpl in *. by rewrite H2, <- app_assoc.
Qed.

Lemma merge_warnings_merge_events outcomes :
  merge_warnings (merge_events name outcomes) = rejected outcomes.
Proof.
  induction outcomes as [|[r [e|]] l IH]; simpl; [done| |done].
  unfold merge_warnings, rejected in *. simpl. by rewrite IH.
Qed.

Lemma restore_widths_lookup W dims col :
  restore_widths W dims !! col
  = match W !! col with
    | Some (Some x) => Some (set_width x (dims !! col))
    | _ => dims !! col
    end.
Proof.
  unfold restore_widths. revert col.
  apply (map_fold_weak_ind (fun r (m : gmap string (option pyfloat)) =>
    ∀ col, r !! col = match m !! col with
                      | Some (Some x) => Some (set_width x (dims !! col))
                      | _ => dims !! col
                      end)).
  - intros col. by rewrite lookup_empty.
  - intros i x m r Hi IH col. destruct (decide (i = col)) as [->|Hne].
    + rewrite lookup_insert_eq. destruct x as [x|].
      * rewrite lookup_insert_eq. f_equal. f_equal. by rewrite IH, Hi.
      * by rewrite IH, Hi.
    + rewrite (lookup_insert_ne m) by done. destruct x as [x|].
      * rewrite lookup_insert_ne by done. apply IH.
      * apply IH.
Qed.

Lemma restore_heights_lookup H dims row :
  restore_heights H dims !! row
  = match H !! row with
    | Some (Some x) => Some (set_height x (dims !! row))
    | _ => dims !! row
    end.
Proof.
  unfold restore_heights. revert row.
  apply (map_fold_weak_ind (fun r (m : gmap positive (option pyfloat)) =>
    ∀ row, r !! row = match m !! row with
                      | Some (Some x) => Some (set_height x (dims !! row))
                      | _ => dims !! row
                      end)).
  - intros row. by rewrite lookup_empty.
  - intros i x m r Hi IH row. destruct (decide (i = row)) as [->|Hne].
    + rewrite lookup_insert_eq. destruct x as [x|].
      * rewrite lookup_insert_eq. f_equal. f_equal. by rewrite IH, Hi.
      * by rewrite IH, Hi.
    + rewrite (lookup_insert_ne m) by done. destruct x as [x|].
      * rewrite lookup_insert_ne by done. apply IH.
      * apply IH.
Qed.

End Phases.

(** ** One sheet *)

Section SheetPhases.
Variable env : environment.
Variables (output : path) (wb : Workbook) (total current : nat).
Variable name : pystr.
Variable ws : Worksheet.
Hypothesis source : worksheets wb !! name = Some ws.

(** Every event and update one sheet's processing can make. *)
Lemma preserves_process_sheet (R : relation world) `{!PreOrder R} :
  (∀ m, merge_warning m = false → admits R (Print m)) →
  (∀ r e, admits R (Print (Msg_warning_merge r e))) →
  (∀ d, admits R (Sleep d)) →
  (∀ s, s ∈ texts (cells ws) →
        admits R (Remote_translate s) ∧ ∀ w, R w (enter s w)) →
  (∀ c, c ∈ cells ws → is_merged c = false →
   (∀ v, admits R (Called (Op_set_value name (cell_coordinate c).1
                             (cell_coordinate c).2 v)))
   ∧ (∀ g, local_at (cell_coordinate c) g →
           tolerates R name (set_cells g))) →
  (∀ g, tolerates R name (set_merged g)) →
  (∀ r, admits R (Called (Op_merge_cells name r))) →
  (∀ g, tolerates R name (set_column_dimensions g)) →
  (∀ g, tolerates R name (set_row_dimensions g)) →
  admits R (Called (Op_save output)) → (∀ f w, R w (set_fs f w)) →
  preserves R (process_sheet env output wb total current name).
Proof.
  intros Hprint Hwarn Hsleep Htext Hcell Hmerged Hmerge Hcol Hrow Hsave Hfs.
  unfold process_sheet. rewrite source. cbv beta iota.
  preserve_step; [preserve_step; by apply Hprint|].
  rewrite bind_ret. preserve_step; [preserve_step|].
  preserve_step.
  { apply preserves_for_each; [exact _|]. intros r _.
    by apply preserves_unmerge_cells. }
  preserve_step; [by apply preserves_collect_pass|].
  preserve_step; [by apply preserves_apply_pass|].
  preserve_step; [by apply preserves_restore_merges|].
  preserve_step; [by apply preserves_restore_layout|].
  preserve_step; [preserve_step; by apply Hprint|].
  by apply preserves_save.
Qed.

(** The phases of a sheet whose processing succeeds. *)
Lemma process_sheet_ok w w' :
  process_sheet env output wb total current name w = (Ok tt, w') →
  ∃ wt T w1 w2 w3 w4 w5,
    wb_target w !! name = Some wt
    ∧ for_each (t_merged_cells wt) (unmerge_cells name)
        (emit (Print (Msg_processing_sheet current total name)) w)
      = (Ok tt, w1)
    ∧ collect_pass env ws w1 = (Ok T, w2)
    ∧ apply_pass env name ws T w2 = (Ok tt, w3)
    ∧ restore_merges env name (merged_cells ws) w3 = (Ok tt, w4)
    ∧ restore_layout name (capture_column_widths ws) (capture_row_heights ws)
        w4 = (Ok tt, w5)
    ∧ save env output (emit (Print (Msg_saving current total)) w5)
      = (Ok tt, w').
Proof.
  unfold process_sheet. rewrite source. intros H.
  apply bind_ok in H as ([] & w0 & H0 & H). injection H0 as <-.
  apply bind_ok in H as (ws' & w0 & H0 & H). injection H0 as <- <-.
  apply bind_ok in H as (wt & w0 & H0 & H).
  unfold target_sheet in H0. simpl in H0.
  destruct (wb_target w !! name) as [wt'|] eqn:E; [|discriminate].
  injection H0 as <- <-.
  apply bind_ok in H as ([] & w1 & H1 & H).
  apply bind_ok in H as (T & w2 & H2 & H).
  apply bind_ok in H as ([] & w3 & H3 & H).
  apply bind_ok in H as ([] & w4 & H4 & H).
  apply bind_ok in H as ([] & w5 & H5 & H).
  apply bind_ok in H as ([] & w6 & H6 & H). injection H6 as <-.
  by exists wt', T, w1, w2, w3, w4, w5.
Qed.

End SheetPhases.

Lemma preserves_run {A} R (m : M A) w r w' :
  preserves R m → m w = (r, w') → R w w'.
Proof. intros H E. specialize (H w). by rewrite E in H. Qed.

Lemma times_entered_none v l : v ∉ l → times_entered v l = 0%nat.
Proof.
  unfold times_entered. induction l as [|x l IH]; intros Hin; [done|].
  rewrite filter_cons. apply not_elem_of_cons in Hin as [Hne Hin].
  rewrite decide_False by done. by apply IH.
Qed.

Lemma times_entered_once v l :
  NoDup l → v ∈ l → times_entered v l = 1%nat.
Proof.
  induction 1 as [|x l Hx Hnd IH]; intros Hin.
  - by apply elem_of_nil in Hin.
  - unfold times_entered in *. rewrite filter_cons.
    apply elem_of_cons in Hin as [->|Hin].
    + rewrite decide_True by done. simpl. f_equal.
      by apply times_entered_none.
    + rewrite decide_False by (intros ->; done). by apply IH.
Qed.

Lemma texts_spec l v :
  v ∈ texts l ↔
  (∃ r k hs st, Cell r k (VStr v) hs st ∈ l) ∧ truthy (strip v) = true.
Proof.
  unfold texts. rewrite list_elem_of_omap. split.
  - intros ([r k x hs st|r k] & Hin & Hc); simpl in Hc; [|done].
    destruct x as [| | | | |s]; simpl in Hc; try done.
    destruct (truthy (strip s)) eqn:E; [|done]. injection Hc as ->.
    split; [by exists r, k, hs, st | done].
  - intros ((r & k & hs & st & Hin) & Hb). eexists. split; [exact Hin|].
    simpl. by rewrite Hb.
Qed.

Lemma translatable_None v :
  translatable v = None ↔ ∀ s, v = VStr s → truthy (strip s) = false.
Proof.
  destruct v as [| | | | |s]; simpl; try (split; [intros _ s' [=] | done]).
  destruct (truthy (strip s)) eqn:E; split; try done.
  - intros H. specialize (H s eq_refl). congruence.
  - by intros _ s' [= <-].
Qed.

Section SheetFrames.
Variable env : environment.
Variable name : pystr.

Lemma collect_pass_spec ws w :
  ∃ T w' new,
    collect_pass env ws w = (Ok T, w')
    ∧ invocations w' = invocations w ++ new
    ∧ collected env ∅ T (cells ws) new.
Proof.
  unfold collect_pass, bind, print, modify.
  destruct (collect_cells_spec env (cells ws) ∅
              (emit (Print Msg_collecting) w))
    as (T & w' & new & H1 & H2 & H3).
  exists T, w', new. rewrite for_fold_concat. by split.
Qed.

(** Phases that leave an observation of the target sheet alone. *)
Lemma unmerge_unchanged {A} (h : TargetSheet → A) L :
  (∀ g ws, h (set_merged g ws) = h ws) →
  preserves (unchanged (observe name h)) (for_each L (unmerge_cells name)).
Proof.
  intros H. apply preserves_for_each; [exact _|]. intros r _.
  apply preserves_unmerge_cells; [exact _|]. intros g.
  by apply tolerates_observe.
Qed.

Lemma collect_unchanged {A} (h : TargetSheet → A) ws :
  preserves (unchanged (observe name h)) (collect_pass env ws).
Proof.
  apply preserves_collect_pass; [exact _|same|same|]. intros s _. split; same.
Qed.

Lemma apply_unchanged {A} (h : TargetSheet → A) T ws :
  (∀ g ws, h (set_cells g ws) = h ws) →
  preserves (unchanged (observe name h)) (apply_pass env name ws T).
Proof.
  intros H. apply preserves_apply_pass; [exact _|same|].
  intros c _ _. split; [same|]. intros g _. by apply tolerates_observe.
Qed.

Lemma restore_merges_unchanged {A} (h : TargetSheet → A) M :
  (∀ g ws, h (set_merged g ws) = h ws) →
  preserves (unchanged (observe name h)) (restore_merges env name M).
Proof.
  intros H. apply preserves_restore_merges; [exact _|same|same|same|].
  intros g. by apply tolerates_observe.
Qed.

Lemma restore_layout_unchanged {A} (h : TargetSheet → A) W H :
  (∀ g ws, h (set_column_dimensions g ws) = h ws) →
  (∀ g ws, h (set_row_dimensions g ws) = h ws) →
  preserves (unchanged (observe name h)) (restore_layout name W H).
Proof.
  intros H1 H2. apply preserves_restore_layout; [exact _|same| |];
    intros g; by apply tolerates_observe.
Qed.

Lemma save_unchanged {A} (h : TargetSheet → A) output :
  preserves (unchanged (observe name h)) (save env output).
Proof. apply preserves_save; [exact _|same|same]. Qed.

(** Only the first pass enters the adapter. *)
Lemma unmerge_quiet L :
  preserves (unchanged invocations) (for_each L (unmerge_cells name)).
Proof.
  apply preserves_for_each; [exact _|]. intros r _.
  apply preserves_unmerge_cells; [exact _|]. same.
Qed.

Lemma apply_quiet T ws :
  preserves (unchanged invocations) (apply_pass env name ws T).
Proof.
  apply preserves_apply_pass; [exact _|same|]. intros c _ _. split; same.
Qed.

Lemma restore_merges_quiet M :
  preserves (unchanged invocations) (restore_merges env name M).
Proof. apply preserves_restore_merges; [exact _|same|same|same|same]. Qed.

Lemma restore_layout_quiet W H :
  preserves (unchanged invocations) (restore_layout name W H).
Proof. apply preserves_restore_layout; [exact _|same|same|same]. Qed.

Lemma save_quiet output :
  preserves (unchanged invocations) (save env output).
Proof. apply preserves_save; [exact _|same|same]. Qed.

End SheetFrames.

Lemma coordinate_inj (l : list cell) c1 c2 :
  NoDup (cell_coordinate <$> l) → c1 ∈ l → c2 ∈ l →
  cell_coordinate c1 = cell_coordinate c2 → c1 = c2.
Proof.
  induction l as [|c l IH]; intros Hnd H1 H2 Heq.
  - by apply elem_of_nil in H1.
  - rewrite fmap_cons in Hnd. apply NoDup_cons in Hnd as [Hc Hnd].
    apply elem_of_cons in H1 as [->|H1]; apply elem_of_cons in H2 as [->|H2];
      [done| | |by apply IH].
    + exfalso. apply Hc. rewrite Heq. apply list_elem_of_fmap. by exists c2.
    + exfalso. apply Hc. rewrite <- Heq. apply list_elem_of_fmap. by exists c1.
Qed.

Lemma admits_enters Q e : admits (enters Q) e.
Proof. intros w. split; by apply enters_same. Qed.

Lemma tolerates_enters Q name f : tolerates (enters Q) name f.
Proof. intros w. by apply enters_same. Qed.

Lemma tolerates_appends P name f : tolerates (appends P) name f.
Proof. intros w. by apply appends_same_trace. Qed.

Lemma enters_enter (Q : pystr → Prop) s w : Q s → enters Q w (enter s w).
Proof. intros H. exists [s]. split; [done | by constructor]. Qed.

Section SheetResults.
Variable env : environment.
Variables (output : path) (wb : Workbook) (total current : nat).
Variable name : pystr.
Variable ws : Worksheet.
Hypothesis source : worksheets wb !! name = Some ws.

Lemma apply_pass_values T w w' :
  apply_pass env name ws T w = (Ok tt, w') →
  is_Some (wb_target w !! name) →
  NoDup (cell_coordinate <$> cells ws) →
  ∀ r k v hs st, Cell r k v hs st ∈ cells ws →
     observe name (cell_value (r, k)) w' = Some (Some (written_value T v)).
Proof.
  unfold apply_pass, bind, print, modify. rewrite for_each_concat.
  intros H Hw. by apply (apply_cells_values env name T _ _ _ H).
Qed.

Lemma present_observe w :
  is_Some (wb_target w !! name) ↔ observe name (fun _ => tt) w = Some tt.
Proof.
  unfold observe. destruct (wb_target w !! name); simpl; split; try done.
Qed.

(** After a sheet processed with success: what the first pass collected
    and what the cells of the target hold. *)
Lemma process_sheet_cells_ok w w' :
  process_sheet env output wb total current name w = (Ok tt, w') →
  NoDup (cell_coordinate <$> cells ws) →
  ∃ T new,
    collected env ∅ T (cells ws) new
    ∧ invocations w' = invocations w ++ new
    ∧ ∀ r k v hs st, Cell r k v hs st ∈ cells ws →
        observe name (cell_value (r, k)) w'
        = Some (Some (written_value T v)).
Proof.
  intros E Hnd.
  apply (process_sheet_ok _ _ _ _ _ _ _ source) in E
    as (wt & T & w1 & w2 & w3 & w4 & w5
        & Hwt & Hun & Hco & Hap & Hme & Hla & Hsa).
  destruct (collect_pass_spec env ws w1) as (T' & w2' & new & Hc & Hinv & Hcol).
  rewrite Hco in Hc. injection Hc as <- <-.
  exists T, new. split; [done|]. split.
  - rewrite (preserves_run _ _ _ _ _ (save_quiet env _) Hsa). simpl.
    rewrite (preserves_run _ _ _ _ _ (restore_layout_quiet name _ _) Hla).
    rewrite (preserves_run _ _ _ _ _ (restore_merges_quiet env name _) Hme).
    rewrite (preserves_run _ _ _ _ _ (apply_quiet env name _ _) Hap).
    rewrite Hinv.
    by rewrite (preserves_run _ _ _ _ _ (unmerge_quiet name _) Hun).
  - intros r k v hs st Hin.
    assert (is_Some (wb_target w2 !! name)) as Hw2.
    { apply present_observe.
      rewrite (preserves_run _ _ _ _ _ (collect_unchanged env name _ ws) Hco).
      rewrite (preserves_run _ _ _ _ _
                 (unmerge_unchanged name (fun _ => tt) _ ltac:(done)) Hun).
      apply present_observe. simpl. by eexists. }
    rewrite (preserves_run _ _ _ _ _ (save_unchanged env name _ _) Hsa).
    assert (observe name (cell_value (r, k))
              (emit (Print (Msg_saving current total)) w5)
            = observe name (cell_value (r, k)) w5) as -> by done.
    rewrite (preserves_run _ _ _ _ _
               (restore_layout_unchanged name (cell_value (r, k)) _ _
                  ltac:(done) ltac:(done)) Hla).
    rewrite (preserves_run _ _ _ _ _
               (restore_merges_unchanged env name (cell_value (r, k)) _
                  ltac:(done)) Hme).
    by eapply apply_pass_values.
Qed.

(** The events of one sheet's processing, whatever its result. *)
Lemma process_sheet_appends (P : event → Prop) :
  (∀ m, P (Print m)) → (∀ d, P (Sleep d)) →
  (∀ s, s ∈ texts (cells ws) → P (Remote_translate s)) →
  (∀ c v, c ∈ cells ws → is_merged c = false →
          P (Called (Op_set_value name (cell_coordinate c).1
                       (cell_coordinate c).2 v))) →
  (∀ r, P (Called (Op_merge_cells name r))) →
  P (Called (Op_save output)) →
  preserves (appends P) (process_sheet env output wb total current name).
Proof.
  intros Hp Hs Hr Hv Hm Ho.
  apply (preserves_process_sheet env output wb total current name ws source);
    try (intros; first [by apply admits_appends | by apply tolerates_appends]).
  - exact _.
  - intros s Hin. split; [apply admits_appends; auto|].
    intros w. by apply appends_same_trace.
  - intros c Hc Hmc. split; [intros v; apply admits_appends; auto|].
    intros; apply tolerates_appends.
  - intros f w. by apply appends_same_trace.
Qed.

(** The adapter is entered with texts of the sheet only. *)
Lemma process_sheet_enters (Q : pystr → Prop) :
  (∀ s, s ∈ texts (cells ws) → Q s) →
  preserves (enters Q) (process_sheet env output wb total current name).
Proof.
  intros HQ.
  apply (preserves_process_sheet env output wb total current name ws source);
    try (intros; first [by apply admits_enters | by apply tolerates_enters]).
  - exact _.
  - intros s Hin. split; [apply admits_enters|].
    intros w. apply enters_enter; auto.
  - intros c Hc Hmc. split; [intros v; apply admits_enters|].
    intros; apply tolerates_enters.
  - intros f w. by apply enters_same.
Qed.

End SheetResults.

(** ** Claims *)

Section SheetClaims.
Variable env : environment.
Variables (output : path) (wb : Workbook) (total current : nat).
Variable name : pystr.
Variable ws : Worksheet.
Hypothesis source : worksheets wb !! name = Some ws.



(** C2. A [MergedCell] of the source sheet is skipped by both passes, and
    whatever the outcome of the sheet's processing, nothing is written at its
    coordinate: the target's cell there (present or not) is what it was, and
    no write of a value at that coordinate is among the events. *)
Theorem merged_members_never_written w r k :
  let run := process_sheet env output wb total current name w in
  MergedCell r k ∈ cells ws →
  NoDup (cell_coordinate <$> cells ws) →
  observe name (fun t => t_cells t !! (r, k)) run.2
  = observe name (fun t => t_cells t !! (r, k)) w
  ∧ appends (fun e => ∀ v, e ≠ Called (Op_set_value name r k v)) w run.2
  ∧ (∀ T, collect_cell env (MergedCell r k) T = ret T)
  ∧ (∀ T, apply_cell env name T (MergedCell r k) = ret tt).
Proof.
  cbv zeta. intros Hin Hnd.
  assert (∀ c, c ∈ cells ws → is_merged c = false →
               cell_coordinate c ≠ (r, k)) as Hne.
  { intros c Hc Hm Heq.
    assert (c = MergedCell r k) as -> by by eapply coordinate_inj.
    done. }
  split; [|split; [|done]].
  - apply (preserves_process_sheet env _ _ _ _ _ _ source
             (unchanged (observe name (fun t => t_cells t !! (r, k)))));
      try same.
    + intros s _. split; same.
    + intros c Hc Hm. split; [same|]. intros g Hg.
      apply tolerates_observe. intros t. simpl. apply Hg.
      intros Heq. by eapply Hne.
  - apply (process_sheet_appends env _ _ _ _ _ _ source); try done.
    intros c v Hc Hm v' [= Hr Hk _]. eapply Hne; [done..|].
    destruct (cell_coordinate c). simpl in *. congruence.
Qed.

(** A text on which the translator always raises is kept in the cells
    that hold it. *)
Lemma failed_text_kept w text r k hs st :
  let run := process_sheet env output wb total current name w in
  (∀ n, ∃ e, translate_reply env n text = inl e) →
  Cell r k (VStr text) hs st ∈ cells ws →
  NoDup (cell_coordinate <$> cells ws) →
  run.1 = Ok tt →
  observe name (cell_value (r, k)) run.2 = Some (Some (VStr text)).
Proof.
  cbv zeta. intros Hf Hin Hnd Hok. 
  destruct (process_sheet env output wb total current name w)
    as [res w'] eqn:E.
  simpl in *. subst res.
  destruct (process_sheet_cells_ok env _ _ _ _ _ _ source _ _ E Hnd)
    as (T & new & (_ & _ & _ & _ & Hval) & _ & Hcells).
  rewrite (Hcells _ _ _ _ _ Hin). do 2 f_equal.
  unfold written_value. destruct (translatable (VStr text)) as [s|] eqn:Ht;
    [|done].
  simpl in Ht. destruct (truthy (strip text)); [|done]. injection Ht as <-.
  destruct (T !! text) as [t|] eqn:HT; [|done]. simpl.
  destruct (Hval _ _ HT) as [Habs|[w0 Hw0]]; [by rewrite lookup_empty in Habs|].
  destruct (safe_translate_all_fail env text 3 1 w0) as (e & _ & Hs);
    [lia|lia|intros; apply Hf|].
  rewrite Hs in Hw0. simpl in Hw0. congruence.
Qed.

End SheetClaims.

Lemma merge_warnings_app l1 l2 :
  merge_warnings (l1 ++ l2) = merge_warnings l1 ++ merge_warnings l2.
Proof. apply omap_app. Qed.

Lemma merge_warnings_none evs :
  Forall not_merge_warning evs → merge_warnings evs = [].
Proof.
  induction 1 as [|e evs He _ IH]; [done|].
  change (e :: evs) with ([e] ++ evs). by rewrite merge_warnings_app, He, IH.
Qed.

Lemma merge_warnings_print m l :
  merge_warning m = false → merge_warnings (Print m :: l) = merge_warnings l.
Proof. by destruct m. Qed.

Lemma print_not_merge_warning m :
  merge_warning m = false → not_merge_warning (Print m).
Proof. by destruct m. Qed.

Lemma merge_outcomes_ranges env name M : ∀ t,
  (merge_outcomes env name t M).*1 = M.
Proof. induction M as [|r M IH]; intros t; simpl; [done | by rewrite IH]. Qed.

Lemma accepted_all outcomes :
  rejected outcomes = [] → accepted outcomes = outcomes.*1.
Proof.
  induction outcomes as [|[r [e|]] l IH]; simpl; [done|done|].
  intros H. unfold accepted, rejected in *. simpl in *. by rewrite IH.
Qed.

Section Layout.
Variable env : environment.
Variable name : pystr.

Lemma restore_layout_spec W H w :
  ∃ w', restore_layout name W H w = (Ok tt, w')
      ∧ trace w' = trace w ++ [Print Msg_restoring_dimensions]
      ∧ wb_target w' !! name
        = (fun t => set_row_dimensions (restore_heights H)
                      (set_column_dimensions (restore_widths W) t))
            <$> wb_target w !! name.
Proof.
  eexists. split; [reflexivity|]. split; [done|]. simpl.
  rewrite !lookup_alter_eq. by destruct (wb_target w !! name).
Qed.

Lemma unmerge_appends P L :
  preserves (appends P) (for_each L (unmerge_cells name)).
Proof.
  apply preserves_for_each; [exact _|]. intros r _.
  apply preserves_unmerge_cells; [exact _|]. intros g.
  apply tolerates_appends.
Qed.

Lemma collect_no_merge_warning ws :
  preserves (appends not_merge_warning) (collect_pass env ws).
Proof.
  apply preserves_collect_pass; [exact _|..].
  - intros m Hm. by apply admits_appends, print_not_merge_warning.
  - intros d. by apply admits_appends.
  - intros s _. split; [by apply admits_appends|].
    intros w. by apply appends_same_trace.
Qed.

Lemma apply_no_merge_warning T ws :
  preserves (appends not_merge_warning) (apply_pass env name ws T).
Proof.
  apply preserves_apply_pass; [exact _|..].
  - intros m Hm. by apply admits_appends, print_not_merge_warning.
  - intros c _ _. split; [intros v; by apply admits_appends|].
    intros g _. apply tolerates_appends.
Qed.

Lemma save_no_merge_warning output :
  preserves (appends not_merge_warning) (save env output).
Proof.
  apply preserves_save; [exact _|by apply admits_appends|].
  intros f w. by apply appends_same_trace.
Qed.

End Layout.

Section LayoutClaim.
Variable env : environment.
Variables (output : path) (wb : Workbook) (total current : nat).
Variable name : pystr.
Variable ws : Worksheet.
Hypothesis source : worksheets wb !! name = Some ws.


End LayoutClaim.

Lemma remote_calls_backoff text delay attempts :
  remote_calls (backoff_events text delay attempts)
  = replicate (length attempts) text.
Proof.
  induction attempts as [|a l IH]; [done|].
  simpl. by rewrite <- IH.
Qed.

Lemma length_range n : length (range n) = Z.to_nat n.
Proof. unfold range. by rewrite length_map, length_seq. Qed.

Section Adapter.
Variable env : environment.
Variables (text : pystr) (max_retries delay : Z).

(** C10. With [max_retries <= 0], for every translator, text and delay
    (negative ones included), the adapter returns the text itself, and
    neither calls the translator (no event, no interaction) nor sleeps. *)
Theorem no_retries_returns_text w :
  let run := safe_translate env text max_retries delay w in
  max_retries <= 0 →
  run.1 = Ok (VStr text)
  ∧ trace run.2 = trace w
  ∧ tick run.2 = tick w
  ∧ fs run.2 = fs w
  ∧ wb_target run.2 = wb_target w.
Proof.
  cbv zeta. intros H. unfold safe_translate, bind, modify.
  by rewrite range_nonpos.
Qed.

(** C6. When the first [failures] attempts raise and the next one
    succeeds, with retries remaining ([failures < max_retries]), the adapter
    returns the translation and its events are, for each failed attempt
    [i], the remote call and a sleep of [delay * (i + 1)], then the remote
    call that succeeds and a sleep of [delay]. After one failure that is one
    backoff sleep of [delay * 1] before the successful retry. [delay] is a
    duration: [time.sleep] refuses a negative one. *)
Theorem retry_sleep_schedule (failures : nat) translated w :
  let run := safe_translate env text max_retries delay w in
  0 <= delay → Z.of_nat failures < max_retries →
  (∀ i, (i < failures)%nat →
        ∃ e, translate_reply env (tick w + i) text = inl e) →
  translate_reply env (tick w + failures) text = inr translated →
  run.1 = Ok translated
  ∧ trace run.2
    = trace w ++ backoff_events text delay (range (Z.of_nat failures))
              ++ [Remote_translate text; Sleep delay]
  ∧ (failures = 1%nat →
     trace run.2
     = trace w ++ [Remote_translate text; Sleep (delay * 1);
                   Remote_translate text; Sleep delay]).
Proof.
  cbv zeta. intros Hd Hlt Hf Hs.
  rewrite (safe_translate_after_failures env text max_retries delay failures
             translated w) by done.
  split; [done|]. split; [done|]. by intros ->.
Qed.

End Adapter.

Section Exhausted.
Variable env : environment.
Variables (text : pystr) (max_retries delay : Z).


End Exhausted.

Lemma bind_eq {A B} (m : M A) (f : A → M B) w a w1 :
  m w = (Ok a, w1) → bind m f w = f a w1.
Proof. intros H. unfold bind. by rewrite H. Qed.

Lemma bind_raise {A B} (m : M A) (f : A → M B) w e w1 :
  m w = (Raise e, w1) → bind m f w = (Raise e, w1).
Proof. intros H. unfold bind. by rewrite H. Qed.

Section Continues.
Variable env : environment.
Variables (output : path) (wb : Workbook) (total : nat).

Hypothesis accepted : writes_accepted env output.

Lemma apply_cells_total name T l : ∀ w,
  ∃ w', for_each l (apply_cell env name T) w = (Ok tt, w').
Proof.
  induction l as [|c l IH]; intros w; [by eexists|].
  cbn [for_each]. destruct c as [r k v hs st|r k].
  - unfold bind at 1, apply_cell, bind, target_cell, set_value, bind, call.
    unfold update_target at 1 2, modify. cbn [tick emit set_wb_target fst snd].
    rewrite (proj1 accepted). destruct hs; apply IH.
  - apply IH.
Qed.

Lemma process_sheet_succeeds current name ws w :
  worksheets wb !! name = Some ws →
  is_Some (wb_target w !! name) →
  (process_sheet env output wb total current name w).1 = Ok tt.
Proof.
  intros source [wt Hwt]. unfold process_sheet. rewrite source.
  erewrite bind_eq by reflexivity. rewrite bind_ret.
  erewrite bind_eq by (unfold target_sheet; simpl; by rewrite Hwt).
  destruct (unmerge_all name (t_merged_cells wt)
              (emit (Print (Msg_processing_sheet current total name)) w))
    as (w1 & Hun & _).
  { unfold observe. simpl. by rewrite Hwt. }
  rewrite (bind_eq _ _ _ _ _ Hun).
  destruct (collect_pass_spec env ws w1) as (T & w2 & new & Hco & _).
  rewrite (bind_eq _ _ _ _ _ Hco).
  assert (∃ w3, apply_pass env name ws T w2 = (Ok tt, w3)) as [w3 Hap].
  { unfold apply_pass. erewrite bind_eq by reflexivity.
    destruct (apply_cells_total name T (cells ws)
                (emit (Print Msg_applying) w2)) as [w3 H3].
    exists w3. by rewrite for_each_concat. }
  rewrite (bind_eq _ _ _ _ _ Hap).
  destruct (restore_merges_spec env name (merged_cells ws) w3)
    as (w4 & Hme & _).
  rewrite (bind_eq _ _ _ _ _ Hme).
  destruct (restore_layout_spec name (capture_column_widths ws)
              (capture_row_heights ws) w4) as (w5 & Hla & _).
  rewrite (bind_eq _ _ _ _ _ Hla).
  erewrite bind_eq by reflexivity.
  unfold save, bind, call. cbn [tick emit]. by rewrite (proj2 accepted).
Qed.

(** Processing a sheet keeps every sheet of the target workbook. *)
Lemma process_sheet_keeps_sheets current name name' w :
  is_Some (wb_target w !! name') →
  is_Some (wb_target
             (process_sheet env output wb total current name w).2 !! name').
Proof.
  intros H. apply (fmap_is_Some (fun _ => tt)).
  apply (fmap_is_Some (fun _ => tt)) in H.
  change (is_Some (observe name' (fun _ => tt)
            (process_sheet env output wb total current name w).2)).
  destruct (worksheets wb !! name) as [ws|] eqn:source.
  - rewrite (preserves_process_sheet env output wb total current name ws
               source (unchanged (observe name' (fun _ => tt)))); try same;
      [done|..].
    + intros s _. split; same.
    + intros c _ _. split; same.
  - unfold process_sheet. rewrite source. done.
Qed.

Lemma process_sheets_succeed sheets : ∀ w,
  (∀ i name, (i, name) ∈ sheets →
     is_Some (worksheets wb !! name) ∧ is_Some (wb_target w !! name)) →
  (process_sheets env output wb total sheets w).1 = Ok tt.
Proof.
  induction sheets as [|[i name] l IH]; intros w H; [done|].
  unfold process_sheets in *. cbn [for_each].
  destruct (H i name ltac:(left)) as [[ws Hws] Hwt].
  pose proof (process_sheet_succeeds i name ws w Hws Hwt) as Hok.
  destruct (process_sheet env output wb total i name w) as [[[]|e] w1] eqn:E;
    [|done].
  rewrite (bind_eq _ _ _ _ _ E). apply IH. intros j name' Hin.
  destruct (H j name' ltac:(by right)) as [H1 H2]. split; [done|].
  pose proof (process_sheet_keeps_sheets i name name' w H2) as Hk.
  by rewrite E in Hk.
Qed.

End Continues.

Section Merges.
Variable env : environment.
Variable name : pystr.


End Merges.


Section Cleanup.
Variable env : environment.
Variables (input output : path).

Lemma cleanup_absent e w :
  fs w !! output = None →
  cleanup env output e w
  = (Ok tt, emit (Print (Msg_traceback e))
              (emit (Print (Msg_error_processing e)) w)).
Proof.
  intros H. unfold cleanup, bind, print, modify, path_exists, get. simpl.
  rewrite bool_decide_false; [done|]. rewrite H. by intros [? ?].
Qed.

Lemma cleanup_removed e w :
  is_Some (fs w !! output) →
  fault env (tick w) (Op_remove output) = None →
  cleanup env output e w
  = (Ok tt,
     emit (Print Msg_cleaned_up)
       (set_fs (delete output (fs w))
          (advance
             (emit (Called (Op_remove output))
                (emit (Print (Msg_traceback e))
                   (emit (Print (Msg_error_processing e)) w)))))).
Proof.
  intros H Hf. unfold cleanup, bind, print, modify, path_exists, get. simpl.
  rewrite bool_decide_true by done.
  unfold try_except, os_remove, bind, path_exists, get. simpl.
  rewrite bool_decide_true by done. unfold call. simpl. by rewrite Hf.
Qed.

Lemma cleanup_failed e e' w :
  is_Some (fs w !! output) →
  fault env (tick w) (Op_remove output) = Some e' →
  cleanup env output e w
  = (Ok tt,
     advance
       (emit (Called (Op_remove output))
          (emit (Print (Msg_traceback e))
             (emit (Print (Msg_error_processing e)) w)))).
Proof.
  intros H Hf. unfold cleanup, bind, print, modify, path_exists, get. simpl.
  rewrite bool_decide_true by done.
  unfold try_except, os_remove, bind, path_exists, get. simpl.
  rewrite bool_decide_true by done. unfold call. simpl. by rewrite Hf.
Qed.

(** C7, amended. When the body of the job's [try] raises, the exception is
    absorbed, nothing else of the job runs but the handler, and the handler
    attempts to delete the output file when it exists: when the removal is
    accepted the file is gone, when the removal itself raises the exception
    is swallowed and the file stays. A sheet whose processing raises ends
    the loop over the sheets at once: the later sheets are not processed. *)
Theorem failure_aborts_job_and_attempts_cleanup w e :
  (process_workbook env input output w).1 = Raise e →
  let w1 := (process_workbook env input output w).2 in
  let w' := (guarded_processing env input output w).2 in
  (guarded_processing env input output w).1 = Ok tt
  ∧ (fs w1 !! output = None →
     fs w' = fs w1
     ∧ trace w' = trace w1 ++ [Print (Msg_error_processing e);
                               Print (Msg_traceback e)])
  ∧ (is_Some (fs w1 !! output) →
     fault env (tick w1) (Op_remove output) = None →
     fs w' = delete output (fs w1)
     ∧ trace w' = trace w1 ++ [Print (Msg_error_processing e);
                               Print (Msg_traceback e);
                               Called (Op_remove output);
                               Print Msg_cleaned_up])
  ∧ (is_Some (fs w1 !! output) →
     is_Some (fault env (tick w1) (Op_remove output)) →
     fs w' = fs w1
     ∧ trace w' = trace w1 ++ [Print (Msg_error_processing e);
                               Print (Msg_traceback e);
                               Called (Op_remove output)])
  ∧ ∀ wb total processed current name rest wa wb' e',
      process_sheets env output wb total processed wa = (Ok tt, wb') →
      (process_sheet env output wb total current name wb').1 = Raise e' →
      process_sheets env output wb total
        (processed ++ (current, name) :: rest) wa
      = process_sheet env output wb total current name wb'.
Proof.
  intros H. unfold guarded_processing, try_except.
  destruct (process_workbook env input output w) as [res w1] eqn:E.
  simpl in H. subst res. cbn zeta. cbn [snd].
  split_and!.
  - destruct (fs w1 !! output) as [bytes|] eqn:Hp.
    + destruct (fault env (tick w1) (Op_remove output)) as [e'|] eqn:Hf.
      * by rewrite (cleanup_failed _ e') by (by rewrite ?Hp).
      * by rewrite cleanup_removed by (by rewrite ?Hp).
    + by rewrite cleanup_absent.
  - intros Hn. rewrite cleanup_absent by done. simpl.
    by rewrite <- app_assoc.
  - intros Hs Hf. rewrite cleanup_removed by done. simpl.
    by rewrite <- !app_assoc.
  - intros Hs [e' Hf]. rewrite (cleanup_failed _ e') by done. simpl.
    by rewrite <- !app_assoc.
  - intros wb total processed current name rest wa wb' e' Hd Hr.
    unfold process_sheets in *. rewrite for_each_app.
    rewrite (bind_eq _ _ _ _ _ Hd). cbn [for_each].
    destruct (process_sheet env output wb total current name wb')
      as [[[]|e''] w2] eqn:E'; [done|].
    by rewrite (bind_raise _ _ _ _ _ E').
Qed.

End Cleanup.

(** ** Further properties of the adapter *)

Section AdapterBounds.
Variable env : environment.
Variables (text : pystr) (max_retries delay : Z).

Lemma later_zero w : later 0 [] w = w.
Proof.
  unfold later. destruct w; simpl. f_equal; [lia | by rewrite app_nil_r].
Qed.

Lemma safe_translate_loop_bounded attempts : ∀ w,
  0 <= delay → Forall (fun a => 0 <= a) attempts →
  ∃ v (k : nat) evs,
    safe_translate_loop env text max_retries delay attempts w
    = (Ok v, later k evs w)
    ∧ remote_calls evs = replicate k text
    ∧ (k <= length attempts)%nat
    ∧ (v = VStr text ∨ ∃ n, translate_reply env n text = inr v).
Proof.
  intros w Hd Ha. revert w. induction Ha as [|a l H0 Ha IH]; intros w.
  - exists (VStr text), 0%nat, []. rewrite later_zero. simpl. auto.
  - destruct (translate_reply env (tick w) text) as [e|v] eqn:E.
    + destruct (decide (a = max_retries - 1)) as [Hm|Hm].
      * rewrite (loop_last _ _ _ _ _ _ _ e) by done.
        eexists _, 1%nat, _. split; [reflexivity|]. simpl.
        split; [done|]. split; [lia | by left].
      * rewrite (loop_retry _ _ _ _ _ _ _ e) by done.
        destruct (IH (later 1 [Remote_translate text;
                               Sleep (delay * (a + 1))] w))
          as (v & k & evs & -> & Hr & Hk & Hv).
        rewrite later_later.
        eexists v, (1 + k)%nat, _. split; [reflexivity|].
        change (remote_calls
                  ([Remote_translate text; Sleep (delay * (a + 1))] ++ evs))
          with (text :: remote_calls evs).
        rewrite Hr. split; [done|]. split; [simpl; lia | done].
    + rewrite (loop_success _ _ _ _ _ _ _ v) by done.
      eexists v, 1%nat, _. split; [reflexivity|]. simpl.
      split; [done|]. split; [lia|]. right. by eexists.
Qed.

(** X1. With a delay that is a duration the adapter never raises, whatever
    the translator does; its remote calls all carry [text] and are at most
    [max_retries]; it touches neither the files nor the workbook; and what
    it returns is the text itself or a reply of the translator. *)
Theorem safe_translate_bounded w :
  let run := safe_translate env text max_retries delay w in
  0 <= delay →
  ∃ v (k : nat) evs,
    run.1 = Ok v
    ∧ trace run.2 = trace w ++ evs
    ∧ remote_calls evs = replicate k text
    ∧ Z.of_nat k <= Z.max 0 max_retries
    ∧ tick run.2 = (tick w + k)%nat
    ∧ fs run.2 = fs w
    ∧ wb_target run.2 = wb_target w
    ∧ (v = VStr text ∨ ∃ n, translate_reply env n text = inr v).
Proof.
  cbv zeta. intros Hd. unfold safe_translate, bind, modify.
  destruct (safe_translate_loop_bounded (range max_retries) (enter text w)
              Hd (range_nonneg _)) as (v & k & evs & -> & Hr & Hk & Hv).
  rewrite length_range in Hk.
  exists v, k, evs. simpl. split_and!; try done. lia.
Qed.

Lemma loop_negative_delay attempt rest w :
  delay < 0 → 0 <= attempt → attempt ≠ max_retries - 1 →
  safe_translate_loop env text max_retries delay (attempt :: rest) w
  = (Raise ValueError, later 1 [Remote_translate text] w).
Proof.
  intros Hd H0 Ha. simpl. unfold bind, try_except, translator_translate.
  unfold time_sleep. destruct (delay <? 0) eqn:E; [|lia].
  destruct (attempt =? max_retries - 1) eqn:F; [lia|].
  destruct (delay * (attempt + 1) <? 0) eqn:G; [|nia].
  destruct (translate_reply env (tick w) text); unfold raise;
    by rewrite advance_emit.
Qed.

Lemma loop_negative_delay_last attempt rest w :
  delay < 0 → attempt = max_retries - 1 →
  ∃ e, safe_translate_loop env text max_retries delay (attempt :: rest) w
       = (Ok (VStr text),
          later 1 [Remote_translate text;
                   Print (Msg_warning_translate text max_retries e)] w).
Proof.
  intros Hd Ha. simpl. unfold bind, try_except, translator_translate.
  unfold time_sleep. destruct (delay <? 0) eqn:E; [|lia].
  destruct (attempt =? max_retries - 1) eqn:F; [|lia].
  destruct (translate_reply env (tick w) text) as [e|v];
    unfold raise, print, modify, ret; eexists;
    by rewrite advance_emit, emit_later.
Qed.

(** X2. A negative delay. The sleep after the remote call raises inside the
    [try], so even a successful translation counts as a failed attempt. With
    two attempts or more the backoff sleep of the handler raises in turn and
    the [ValueError] reaches the caller after a single remote call; with one
    attempt the text comes back untranslated, with the warning. *)
Theorem safe_translate_negative_delay w :
  let run := safe_translate env text max_retries delay w in
  delay < 0 →
  (2 <= max_retries →
   run.1 = Raise ValueError
   ∧ trace run.2 = trace w ++ [Remote_translate text])
  ∧ (max_retries = 1 →
     run.1 = Ok (VStr text)
     ∧ ∃ e, trace run.2
            = trace w ++ [Remote_translate text;
                          Print (Msg_warning_translate text max_retries e)]).
Proof.
  cbv zeta. intros Hd. split.
  - intros Hm. unfold safe_translate, bind, modify, range.
    destruct (Z.to_nat max_retries) as [|n] eqn:En; [lia|]. cbn [seq map].
    by rewrite loop_negative_delay by (simpl; lia).
  - intros Hm. unfold safe_translate, bind, modify, range.
    destruct (Z.to_nat max_retries) as [|n] eqn:En; [lia|]. cbn [seq map].
    destruct (loop_negative_delay_last (Z.of_nat 0)
                (map Z.of_nat (seq 1 n)) (enter text w)) as [e ->];
      [done | simpl; lia |].
    split; [done|]. by exists e.
Qed.

End AdapterBounds.

(** ** The preparation of the job *)

Section Preparation.
Variable env : environment.

(** X3. [kill_excel_processes] never raises: it waits two seconds when
    [taskkill] could be run, and swallows the exception otherwise. It
    changes no file and no workbook. *)
Theorem kill_excel_processes_never_raises w :
  let run := kill_excel_processes env w in
  run.1 = Ok tt
  ∧ fs run.2 = fs w
  ∧ wb_target run.2 = wb_target w
  ∧ trace run.2
    = trace w ++ Called Op_taskkill
              :: match fault env (tick w) Op_taskkill with
                 | None => [Sleep 2]
                 | Some _ => []
                 end.
Proof.
  cbv zeta. unfold kill_excel_processes, try_except, bind, call.
  destruct (fault env (tick w) Op_taskkill); simpl; [done|].
  by rewrite <- app_assoc.
Qed.

Lemma os_remove_absent p w :
  fs w !! p = None → os_remove env p w = (Raise FileNotFoundError, w).
Proof.
  intros H. unfold os_remove, bind, path_exists, get.
  rewrite bool_decide_false; [done|]. rewrite H. by intros [? ?].
Qed.

Lemma os_remove_rejected p w e :
  is_Some (fs w !! p) → fault env (tick w) (Op_remove p) = Some e →
  os_remove env p w = (Raise e, later 1 [Called (Op_remove p)] w).
Proof.
  intros H Hf. unfold os_remove, bind, path_exists, get.
  rewrite bool_decide_true by done. unfold call. rewrite Hf.
  by rewrite advance_emit.
Qed.

Lemma os_remove_accepted p w :
  is_Some (fs w !! p) → fault env (tick w) (Op_remove p) = None →
  os_remove env p w
  = (Ok tt, set_fs (delete p (fs w)) (later 1 [Called (Op_remove p)] w)).
Proof.
  intros H Hf. unfold os_remove, bind, path_exists, get.
  rewrite bool_decide_true by done. unfold call. rewrite Hf.
  by rewrite advance_emit.
Qed.

Lemma shutil_copy2_absent src dst w :
  fs w !! src = None →
  shutil_copy2 env src dst w = (Raise FileNotFoundError, w).
Proof. intros H. unfold shutil_copy2, bind, get. simpl. by rewrite H. Qed.

Lemma shutil_copy2_rejected src dst w bytes e :
  fs w !! src = Some bytes → fault env (tick w) (Op_copy2 src dst) = Some e →
  shutil_copy2 env src dst w
  = (Raise e, later 1 [Called (Op_copy2 src dst)] w).
Proof.
  intros H Hf. unfold shutil_copy2, bind, get. simpl. rewrite H.
  unfold call. rewrite Hf. by rewrite advance_emit.
Qed.

Lemma shutil_copy2_accepted src dst w bytes :
  fs w !! src = Some bytes → fault env (tick w) (Op_copy2 src dst) = None →
  shutil_copy2 env src dst w
  = (Ok tt, set_fs (<[dst := bytes]> (fs w))
              (later 1 [Called (Op_copy2 src dst)] w)).
Proof.
  intros H Hf. unfold shutil_copy2, bind, get. simpl. rewrite H.
  unfold call. rewrite Hf. by rewrite advance_emit.
Qed.

Variables (input_file output_file : path).

Ltac run_duplicate :=
  unfold duplicate, try_except, bind, path_exists, get, os_remove, bind,
    path_exists, get, shutil_copy2, bind, get, call, time_sleep, modify,
    print, modify, raise, ret;
  cbn [fs tick emit advance set_fs fst snd Z.ltb Z.compare].

Lemma duplicate_absent_missing w :
  fs w !! output_file = None → fs w !! input_file = None →
  duplicate env input_file output_file w
  = (Ok false, emit (Print (Msg_input_not_found input_file)) w).
Proof.
  intros Ho Hi. run_duplicate.
  rewrite bool_decide_false by (rewrite Ho; by intros [? ?]).
  by rewrite Hi.
Qed.

Lemma duplicate_absent_rejected w bytes e :
  fs w !! output_file = None → fs w !! input_file = Some bytes →
  fault env (tick w) (Op_copy2 input_file output_file) = Some e →
  duplicate env input_file output_file w
  = (Ok false,
     emit (Print (copy_failure input_file e))
       (later 1 [Called (Op_copy2 input_file output_file)] w)).
Proof.
  intros Ho Hi Hf. run_duplicate.
  rewrite bool_decide_false by (rewrite Ho; by intros [? ?]).
  rewrite Hi, Hf, <- advance_emit. by destruct e.
Qed.

Lemma duplicate_absent_accepted w bytes :
  fs w !! output_file = None → fs w !! input_file = Some bytes →
  fault env (tick w) (Op_copy2 input_file output_file) = None →
  duplicate env input_file output_file w
  = (Ok true,
     set_fs (<[output_file := bytes]> (fs w))
       (later 1 [Called (Op_copy2 input_file output_file)] w)).
Proof.
  intros Ho Hi Hf. run_duplicate.
  rewrite bool_decide_false by (rewrite Ho; by intros [? ?]).
  by rewrite Hi, Hf, <- advance_emit.
Qed.

Lemma duplicate_present_locked w e :
  is_Some (fs w !! output_file) →
  fault env (tick w) (Op_remove output_file) = Some e →
  duplicate env input_file output_file w
  = (Ok false,
     emit (Print (copy_failure input_file e))
       (later 1 [Called (Op_remove output_file)] w)).
Proof.
  intros Ho Hf. run_duplicate. rewrite !bool_decide_true by done.
  rewrite Hf, <- advance_emit. by destruct e.
Qed.

(** When the old output file could be removed, the copy goes on from the
    world after the removal and the pause. *)
Lemma duplicate_present_removed w :
  is_Some (fs w !! output_file) →
  fault env (tick w) (Op_remove output_file) = None →
  duplicate env input_file output_file w
  = duplicate env input_file output_file
      (emit (Sleep 1)
         (set_fs (delete output_file (fs w))
            (advance (emit (Called (Op_remove output_file)) w)))).
Proof.
  intros Ho Hf. run_duplicate. rewrite !bool_decide_true by done.
  rewrite Hf. rewrite bool_decide_false; [done|].
  rewrite lookup_delete_eq. by intros [? ?].
Qed.


Lemma duplicate_absent_outcome w :
  fs w !! output_file = None →
  let run := duplicate env input_file output_file w in
  wb_target run.2 = wb_target w
  ∧ ((∃ bytes, run.1 = Ok true ∧ input_file ≠ output_file
               ∧ fs w !! input_file = Some bytes
               ∧ fs run.2 = <[output_file := bytes]> (fs w)
               ∧ trace run.2
                 = trace w ++ [Called (Op_copy2 input_file output_file)])
     ∨ (run.1 = Ok false ∧ fs run.2 = fs w
        ∧ ∃ evs e, trace run.2
                   = trace w ++ evs ++ [Print (copy_failure input_file e)])).
Proof.
  intros Ho. cbv zeta.
  destruct (fs w !! input_file) as [bytes|] eqn:Hi.
  - destruct (fault env (tick w) (Op_copy2 input_file output_file))
      as [e|] eqn:Hf.
    + rewrite (duplicate_absent_rejected w bytes e) by done.
      split; [done|]. right. split; [done|]. split; [done|].
      exists [Called (Op_copy2 input_file output_file)], e. simpl.
      by rewrite <- app_assoc.
    + rewrite (duplicate_absent_accepted w bytes) by done.
      split; [done|]. left. exists bytes. split_and!; try done.
      intros Heq. rewrite Heq in Hi. congruence.
  - rewrite duplicate_absent_missing by done.
    split; [done|]. right. split; [done|]. split; [done|].
    by exists [], FileNotFoundError.
Qed.

(** Every way the copy step can end. *)
Lemma duplicate_outcome w :
  let run := duplicate env input_file output_file w in
  wb_target run.2 = wb_target w
  ∧ ((∃ bytes, run.1 = Ok true ∧ input_file ≠ output_file
               ∧ fs w !! input_file = Some bytes
               ∧ fs run.2 = <[output_file := bytes]> (fs w))
     ∨ (run.1 = Ok false
        ∧ (fs run.2 = fs w ∨ fs run.2 = delete output_file (fs w))
        ∧ ∃ evs e, trace run.2
                   = trace w ++ evs ++ [Print (copy_failure input_file e)])).
Proof.
  cbv zeta. destruct (fs w !! output_file) as [old|] eqn:Ho.
  - destruct (fault env (tick w) (Op_remove output_file)) as [e|] eqn:Hf.
    + rewrite (duplicate_present_locked w e) by (by rewrite ?Ho).
      split; [done|]. right. split; [done|]. split; [by left|].
      exists [Called (Op_remove output_file)], e. simpl.
      by rewrite <- app_assoc.
    + rewrite duplicate_present_removed by (by rewrite ?Ho).
      match goal with |- context [duplicate _ _ _ ?w1] =>
        destruct (duplicate_absent_outcome w1) as [Hw [H|H]] end.
      { simpl. apply lookup_delete_eq. }
      * destruct H as (bytes & H1 & H2 & H3 & H4 & _). split; [done|].
        left. exists bytes. simpl in H3, H4.
        rewrite lookup_delete_ne in H3 by done.
        split_and!; try done. by rewrite H4, insert_delete_eq.
      * destruct H as (H1 & H2 & evs & e & H3). split; [done|].
        right. split; [done|]. split; [by right|].
        exists ([Called (Op_remove output_file); Sleep 1] ++ evs), e.
        rewrite H3. simpl. by rewrite <- !app_assoc.
  - destruct (duplicate_absent_outcome w Ho) as [Hw [H|H]].
    + destruct H as (bytes & H1 & H2 & H3 & H4 & _). split; [done|].
      left. by exists bytes.
    + destruct H as (H1 & H2 & H3). split; [done|]. right.
      split; [done|]. split; [by left | done].
Qed.

(** X4. The copy step returns [true] only when the input file exists at a
    path other than the output path, and then the output file holds the
    bytes of the input file and no other file has changed. *)
Theorem duplicate_copies_bytes w :
  let run := duplicate env input_file output_file w in
  run.1 = Ok true →
  input_file ≠ output_file
  ∧ ∃ bytes, fs w !! input_file = Some bytes
             ∧ fs run.2 = <[output_file := bytes]> (fs w)
             ∧ fs run.2 !! input_file = Some bytes
             ∧ wb_target run.2 = wb_target w.
Proof.
  cbv zeta. intros Hok.
  destruct (duplicate_outcome w) as [Hw [(bytes & _ & H2 & H3 & H4)|[H _]]];
    [|congruence].
  split; [done|]. exists bytes. split_and!; try done.
  by rewrite H4, lookup_insert_ne.
Qed.

(** X5. The copy step never raises. It reports a failure by returning
    [false] after printing one message, the one for a missing input file
    when the exception is a [FileNotFoundError]; and the only file it can
    have changed is the one at the output path. *)
Theorem duplicate_never_raises w :
  let run := duplicate env input_file output_file w in
  ∃ copied, run.1 = Ok copied
    ∧ (∀ p, p ≠ output_file → fs run.2 !! p = fs w !! p)
    ∧ (copied = false →
       ∃ evs e, trace run.2
                = trace w ++ evs ++ [Print (copy_failure input_file e)]).
Proof.
  cbv zeta.
  destruct (duplicate_outcome w)
    as [Hw [(bytes & H1 & H2 & H3 & H4)|(H1 & H2 & H3)]].
  - exists true. split; [done|]. split; [|done].
    intros p Hp. by rewrite H4, lookup_insert_ne.
  - exists false. split; [done|]. split; [|done].
    intros p Hp. destruct H2 as [-> | ->]; [done|].
    by rewrite lookup_delete_ne.
Qed.

(** X6. An old file at the output path is removed before the input file is
    looked at. When the input file does not exist, or when the two paths are
    the same, the step fails with the message for a missing input file and
    the file that was at the output path is lost. *)
Theorem duplicate_loses_output w :
  let run := duplicate env input_file output_file w in
  is_Some (fs w !! output_file) →
  fault env (tick w) (Op_remove output_file) = None →
  input_file = output_file ∨ fs w !! input_file = None →
  run.1 = Ok false
  ∧ fs run.2 = delete output_file (fs w)
  ∧ trace run.2
    = trace w ++ [Called (Op_remove output_file); Sleep 1;
                  Print (Msg_input_not_found input_file)].
Proof.
  cbv zeta. intros Ho Hf Hi. rewrite duplicate_present_removed by done.
  rewrite duplicate_absent_missing.
  - simpl. by rewrite <- !app_assoc.
  - simpl. apply lookup_delete_eq.
  - simpl. destruct Hi as [->|Hi]; [apply lookup_delete_eq|].
    destruct (decide (input_file = output_file)) as [->|Hne];
      [apply lookup_delete_eq | by rewrite lookup_delete_ne].
Qed.

End Preparation.

(** ** The files of the job *)

(** The footprint of one sheet, with the save as a whole. *)
Lemma footprint_process_sheet env output wb total current name
    (R : relation world) `{!PreOrder R} :
  (∀ m, merge_warning m = false → admits R (Print m)) →
  (∀ r e, admits R (Print (Msg_warning_merge r e))) →
  (∀ d, admits R (Sleep d)) →
  (∀ s, admits R (Remote_translate s) ∧ ∀ w, R w (enter s w)) →
  (∀ op, admits R (Called op)) →
  (∀ f, tolerates R name f) →
  preserves R (save env output) →
  preserves R (process_sheet env output wb total current name).
Proof.
  intros Hprint Hwarn Hsleep Htext Hcall Hupd Hsave.
  unfold process_sheet.
  preserve_step; [preserve_step; by apply Hprint|].
  preserve_step; [destruct (worksheets wb !! name); preserve_step|].
  preserve_step; [preserve_step|].
  preserve_step.
  { apply preserves_for_each; [exact _|]. intros r _.
    by apply preserves_unmerge_cells. }
  preserve_step; [by apply preserves_collect_pass|].
  preserve_step; [apply preserves_apply_pass; [done..|]; by split|].
  preserve_step; [by apply preserves_restore_merges|].
  preserve_step; [by apply preserves_restore_layout|].
  preserve_step; [preserve_step; by apply Hprint | done].
Qed.

Section Files.
Variable env : environment.
Variables (input output p : path).
Hypothesis other : p ≠ output.

Lemma kept_kill_excel_processes :
  preserves (unchanged (fun w => fs w !! p)) (kill_excel_processes env).
Proof. unfold kill_excel_processes. repeat preserve_step; same. Qed.

Lemma kept_os_remove :
  preserves (unchanged (fun w => fs w !! p)) (os_remove env output).
Proof.
  unfold os_remove, path_exists. preserve_step; [preserve_step|].
  destruct a; repeat preserve_step; [same|].
  intros w. unfold unchanged. simpl. by rewrite lookup_delete_ne.
Qed.

Lemma kept_save :
  preserves (unchanged (fun w => fs w !! p)) (save env output).
Proof.
  unfold save. repeat preserve_step; [same|].
  intros w. unfold unchanged. simpl. by rewrite lookup_insert_ne.
Qed.

Lemma kept_process_sheet wb total current name :
  preserves (unchanged (fun w => fs w !! p))
    (process_sheet env output wb total current name).
Proof.
  apply footprint_process_sheet; try same; [exact _| |apply kept_save].
  intros s. split; same.
Qed.

Lemma kept_process_workbook :
  preserves (unchanged (fun w => fs w !! p))
    (process_workbook env input output).
Proof.
  unfold process_workbook, load_workbook.
  preserve_step.
  { preserve_step; [preserve_step|].
    destruct a as [bytes|]; [destruct (load_source env bytes)|];
      preserve_step. }
  preserve_step.
  { preserve_step; [preserve_step|].
    destruct a0 as [bytes|]; [destruct (load_target env bytes)|];
      preserve_step. }
  preserve_step; [preserve_step; same|].
  preserve_step.
  { apply preserves_for_each; [exact _|]. intros [i name] _.
    apply kept_process_sheet. }
  repeat preserve_step; same.
Qed.

Lemma kept_cleanup e :
  preserves (unchanged (fun w => fs w !! p)) (cleanup env output e).
Proof.
  unfold cleanup, path_exists.
  preserve_step; [preserve_step; same|].
  preserve_step; [preserve_step; same|].
  preserve_step; [preserve_step|].
  destruct a1; [|preserve_step].
  preserve_step; [|preserve_step].
  preserve_step; [apply kept_os_remove | preserve_step; same].
Qed.

End Files.

(** ** The job as a whole *)

Section Job.
Variable env : environment.

Lemma kill_excel_processes_run w :
  kill_excel_processes env w
  = (Ok tt,
     later 1 (Called Op_taskkill
                :: match fault env (tick w) Op_taskkill with
                   | None => [Sleep 2]
                   | Some _ => []
                   end) w).
Proof.
  unfold kill_excel_processes, try_except, bind, call.
  destruct (fault env (tick w) Op_taskkill); simpl; rewrite advance_emit;
    [done|]. by rewrite emit_later.
Qed.

Lemma cleanup_never_raises output e w : (cleanup env output e w).1 = Ok tt.
Proof.
  destruct (fs w !! output) as [bytes|] eqn:Hp.
  - destruct (fault env (tick w) (Op_remove output)) as [e'|] eqn:Hf.
    + by rewrite (cleanup_failed _ _ _ e') by (by rewrite ?Hp).
    + by rewrite cleanup_removed by (by rewrite ?Hp).
  - by rewrite cleanup_absent.
Qed.

Lemma guarded_processing_never_raises input output w :
  (guarded_processing env input output w).1 = Ok tt.
Proof.
  unfold guarded_processing, try_except.
  destruct (process_workbook env input output w) as [[[]|e] w1]; [done|].
  apply cleanup_never_raises.
Qed.

Lemma duplicate_appends input output :
  preserves (appends (fun _ => True)) (duplicate env input output).
Proof.
  unfold duplicate, os_remove, shutil_copy2, path_exists.
  preserve_step.
  - preserve_step; [preserve_step|].
    preserve_step.
    { destruct a; [|preserve_step].
      preserve_step.
      - preserve_step; [preserve_step|].
        destruct a; repeat preserve_step; intros;
          first [by apply appends_advance_emit | by apply appends_same_trace].
      - preserve_step. intros. by apply appends_emit. }
    preserve_step; [|preserve_step].
    preserve_step; [preserve_step|].
    destruct a1; repeat preserve_step; intros;
      first [by apply appends_advance_emit | by apply appends_same_trace].
  - preserve_step; [|preserve_step].
    destruct e; preserve_step; intros; by apply appends_emit.
Qed.

(** The world when the copy step starts. *)
Lemma translate_excel_run input_file output_file source_lang target_lang w :
  translate_excel env input_file output_file source_lang target_lang w
  = let i := (resolve env input_file output_file).1 in
    let o := (resolve env input_file output_file).2 in
    let w1 := emit (Print (Msg_output_file o))
                (emit (Print (Msg_input_file i))
                   (kill_excel_processes env w).2) in
    match duplicate env i o w1 with
    | (Ok true, w2) =>
        (call env (Op_translator source_lang target_lang) ;;
         guarded_processing env i o) (emit (Print (Msg_reading i)) w2)
    | (Ok false, w2) => (Ok tt, w2)
    | (Raise e, w2) => (Raise e, w2)
    end.
Proof.
  unfold translate_excel. destruct (resolve env input_file output_file)
    as [i o]. cbn [fst snd]. cbv zeta.
  unfold bind at 1. rewrite kill_excel_processes_run. cbn [snd].
  unfold bind at 1, print at 1, modify at 1.
  unfold bind at 1, print at 1, modify at 1.
  unfold bind at 1.
  match goal with |- context [duplicate env i o ?x] =>
    destruct (duplicate env i o x) as [[[]|e] w2] end; reflexivity.
Qed.

Variables (input_file : path) (output_file : option path).
Variables (source_lang target_lang : pystr).

(** X7. An exception leaves [translate_excel] only when the construction of
    the translator (line 72, outside every [try]) raises it. The copy of the
    input file has been made by then and stays at the output path: no handler
    removes it. *)
Theorem only_translator_construction_raises w e :
  let i := (resolve env input_file output_file).1 in
  let o := (resolve env input_file output_file).2 in
  let run := translate_excel env input_file output_file source_lang
               target_lang w in
  run.1 = Raise e →
  ∃ n bytes evs,
    fault env n (Op_translator source_lang target_lang) = Some e
    ∧ fs w !! i = Some bytes
    ∧ fs run.2 = <[o := bytes]> (fs w)
    ∧ trace run.2
      = trace w ++ evs ++ [Print (Msg_reading i);
                           Called (Op_translator source_lang target_lang)].
Proof.
  cbv zeta. rewrite translate_excel_run. cbv zeta.
  rewrite kill_excel_processes_run. cbn [snd].
  set (i := (resolve env input_file output_file).1).
  set (o := (resolve env input_file output_file).2).
  match goal with |- context [duplicate _ _ _ ?x] => set (w1 := x) end.
  destruct (duplicate_outcome env i o w1)
    as [Hw [(bytes & H1 & H2 & H3 & H4)|(H1 & H2 & H3)]];
    destruct (duplicate env i o w1) as [res w2] eqn:E; cbn [fst snd] in *;
    subst res; [|done].
  destruct (preserves_run _ _ _ _ _ (duplicate_appends i o) E)
    as (evs & Hevs & _).
  unfold bind, call. cbn [tick emit].
  destruct (fault env (tick w2) (Op_translator source_lang target_lang))
    as [e'|] eqn:Hf.
  - intros [= <-]. cbn [snd trace advance emit fs].
    rewrite Hevs. subst w1. cbn [trace emit later fs] in *.
    rewrite <- !app_assoc.
    exists (tick w2), bytes,
      ((Called Op_taskkill
          :: match fault env (tick w) Op_taskkill with
             | None => [Sleep 2]
             | Some _ => []
             end)
       ++ [Print (Msg_input_file i)] ++ [Print (Msg_output_file o)] ++ evs).
    split_and!; [done..|]. by rewrite <- !app_assoc.
  - intros Hr. pose proof (guarded_processing_never_raises i o
      (advance (emit (Called (Op_translator source_lang target_lang))
                  (emit (Print (Msg_reading i)) w2)))) as Hg.
    congruence.
Qed.


Lemma kept_duplicate input output p :
  p ≠ output →
  preserves (unchanged (fun w => fs w !! p)) (duplicate env input output).
Proof.
  intros Hp w. unfold unchanged.
  destruct (duplicate_outcome env input output w)
    as [_ [(bytes & _ & _ & _ & ->)|(_ & [-> | ->] & _)]]; [|done|].
  - by rewrite lookup_insert_ne.
  - by rewrite lookup_delete_ne.
Qed.


Lemma duplicate_missing_input input output w :
  fs w !! input = None →
  ∃ w' evs e,
    duplicate env input output w = (Ok false, w')
    ∧ wb_target w' = wb_target w
    ∧ invocations w' = invocations w
    ∧ (fs w' = fs w ∨ fs w' = delete output (fs w))
    ∧ trace w' = trace w ++ evs ++ [Print (copy_failure input e)]
    ∧ Forall (fun ev => ev = Called (Op_remove output) ∨ ev = Sleep 1) evs.
Proof.
  intros Hi. destruct (fs w !! output) as [old|] eqn:Ho.
  - destruct (fault env (tick w) (Op_remove output)) as [e|] eqn:Hf.
    + rewrite (duplicate_present_locked _ _ _ w e) by (by rewrite ?Ho).
      eexists _, [Called (Op_remove output)], e.
      split_and!; try done; [by left | simpl; by rewrite <- app_assoc |].
      constructor; [by left | constructor].
    + rewrite duplicate_present_removed by (by rewrite ?Ho).
      rewrite duplicate_absent_missing; cycle 1.
      { simpl. apply lookup_delete_eq. }
      { simpl. destruct (decide (input = output)) as [->|Hne];
          [apply lookup_delete_eq | by rewrite lookup_delete_ne]. }
      eexists _, [Called (Op_remove output); Sleep 1], FileNotFoundError.
      split_and!; try done; [by right | simpl; by rewrite <- !app_assoc |].
      constructor; [by left|]. constructor; [by right | constructor].
  - rewrite duplicate_absent_missing by done.
    eexists _, [], FileNotFoundError.
    split_and!; try done. by left.
Qed.

(** X9. When no file exists at the input path, the job ends normally after
    the failure message of the copy step. Beforehand it has done no more
    than try to end the spreadsheet application and remove an old file at
    the output path: no workbook is loaded, no translator is made and nothing
    is translated. *)
Theorem missing_input_stops_job w :
  let i := (resolve env input_file output_file).1 in
  let o := (resolve env input_file output_file).2 in
  let run := translate_excel env input_file output_file source_lang
               target_lang w in
  fs w !! i = None →
  run.1 = Ok tt
  ∧ wb_target run.2 = wb_target w
  ∧ invocations run.2 = invocations w
  ∧ (fs run.2 = fs w ∨ fs run.2 = delete o (fs w))
  ∧ ∃ evs e,
      trace run.2 = trace w ++ evs ++ [Print (copy_failure i e)]
      ∧ remote_calls evs = []
      ∧ Forall (fun ev => ∀ op, ev = Called op →
                          op = Op_taskkill ∨ op = Op_remove o) evs.
Proof.
  cbv zeta. intros Hi. rewrite translate_excel_run. cbv zeta.
  rewrite kill_excel_processes_run. cbn [snd].
  set (i := (resolve env input_file output_file).1) in *.
  set (o := (resolve env input_file output_file).2).
  match goal with |- context [duplicate _ _ _ ?x] => set (w1 := x) end.
  destruct (duplicate_missing_input i o w1 Hi)
    as (w' & evs & e & -> & H1 & H2 & H3 & H4 & H5).
  cbn [fst snd]. split_and!; try done.
  rewrite H4. subst w1. cbn [trace emit later].
  rewrite <- !app_assoc.
  exists ((Called Op_taskkill
             :: match fault env (tick w) Op_taskkill with
                | None => [Sleep 2]
                | Some _ => []
                end)
          ++ [Print (Msg_input_file i)] ++ [Print (Msg_output_file o)]
          ++ evs), e.
  rewrite <- !app_assoc. split; [reflexivity|]. split.
  - assert (remote_calls evs = []) as Hr.
    { clear -H5. induction H5 as [|ev l [-> | ->] _ IH]; done. }
    unfold remote_calls in *. rewrite !omap_app, Hr.
    by destruct (fault env (tick w) Op_taskkill).
  - rewrite !Forall_app. split_and!.
    + destruct (fault env (tick w) Op_taskkill);
        repeat (constructor; [intros op [=]; subst; auto|]); constructor.
    + repeat (constructor; [intros op [=]|]); constructor.
    + repeat (constructor; [intros op [=]|]); constructor.
    + eapply Forall_impl; [exact H5|]. intros ev [-> | ->] op [= <-]. auto.
Qed.


End Job.

(** ** The unmerge loop *)

Section Unmerge.
Variable name : pystr.


End Unmerge.

(** ** The checkpoint of a sheet *)

Section Checkpoint.
Variable env : environment.
Variable output : path.

Lemma checkpoints_bind {A B} (m : M A) (f : A → M B) :
  preserves (unchanged fs) m → (∀ a, checkpoints env output (f a)) →
  checkpoints env output (bind m f).
Proof.
  intros Hm Hf w. unfold bind. specialize (Hm w). unfold unchanged in Hm.
  destruct (m w) as [[a|e] w1]; simpl in *; [|done].
  specialize (Hf a w1). by rewrite Hm in Hf.
Qed.

Lemma checkpoints_save : checkpoints env output (save env output).
Proof.
  intros w. unfold save, bind, call.
  by destruct (fault env (tick w) (Op_save output)).
Qed.

Lemma checkpoints_process_sheet wb total current name :
  checkpoints env output (process_sheet env output wb total current name).
Proof.
  unfold process_sheet.
  apply checkpoints_bind; [preserve_step; same|]. intros _.
  destruct (worksheets wb !! name) as [ws|]; cycle 1.
  { intros w. done. }
  rewrite bind_ret.
  apply checkpoints_bind; [preserve_step|]. intros wt.
  apply checkpoints_bind.
  { apply preserves_for_each; [exact _|]. intros r _.
    apply preserves_unmerge_cells; [exact _|]. same. }
  intros _. apply checkpoints_bind.
  { apply preserves_collect_pass; [exact _|same|same|].
    intros s _. split; same. }
  intros T. apply checkpoints_bind.
  { apply preserves_apply_pass; [exact _|same|]. intros c _ _. split; same. }
  intros _. apply checkpoints_bind.
  { apply preserves_restore_merges; [exact _|same|same|same|same]. }
  intros _. apply checkpoints_bind.
  { apply preserves_restore_layout; [exact _|same|same|same]. }
  intros _. apply checkpoints_bind; [preserve_step; same|].
  intros _. apply checkpoints_save.
Qed.


Lemma process_sheets_checkpoint wb total sheets : ∀ w w',
  process_sheets env output wb total sheets w = (Ok tt, w') →
  sheets ≠ [] →
  fs w' = <[output := serialize env (wb_target w')]> (fs w).
Proof.
  induction sheets as [|[i name] l IH]; intros w w' H Hne; [done|].
  unfold process_sheets in *. cbn [for_each] in H.
  apply bind_ok in H as ([] & w1 & H1 & H2).
  pose proof (checkpoints_process_sheet wb total i name w) as Hc.
  rewrite H1 in Hc. simpl in Hc.
  destruct l as [|x l].
  - injection H2 as <-. done.
  - rewrite (IH w1 w' H2 ltac:(done)), Hc. by rewrite insert_insert_eq.
Qed.

(** X13. Processing the sheet [name] leaves every other sheet of the target
    workbook as it was, whatever the outcome. *)
Theorem other_sheets_untouched wb total current name w other :
  let run := process_sheet env output wb total current name w in
  other ≠ name →
  wb_target run.2 !! other = wb_target w !! other.
Proof.
  cbv zeta. intros Hne. revert w.
  change (preserves (unchanged (fun w => wb_target w !! other))
            (process_sheet env output wb total current name)).
  apply footprint_process_sheet; try same; [exact _| | |].
  - intros s. split; same.
  - intros f w. unfold unchanged. simpl. by rewrite lookup_alter_ne.
  - unfold save. repeat preserve_step; same.
Qed.


End Checkpoint.

(** ** Styles *)

Section Styles.
Variable env : environment.
Variable name : pystr.

Lemma apply_cell_style T r k v st w w' :
  apply_cell env name T (Cell r k v true st) w = (Ok tt, w') →
  is_Some (wb_target w !! name) →
  observe name (style_at (r, k)) w' = Some (Some st).
Proof.
  intros H [ws E]. unfold apply_cell, bind, target_cell, set_value, bind, call,
    update_target, modify, copy_cell_format in H. simpl in H.
  destruct (fault env _ _); simpl in H; [discriminate|].
  unfold observe, style_at.
  injection H as <-; simpl; rewrite !lookup_alter_eq, E; simpl;
    rewrite !lookup_alter_eq; case_match eqn:F;
    rewrite ?lookup_insert_eq, ?F; done.
Qed.

Lemma apply_cells_styles T l : ∀ w w',
  for_each l (apply_cell env name T) w = (Ok tt, w') →
  is_Some (wb_target w !! name) →
  NoDup (cell_coordinate <$> l) →
  ∀ r k v st, Cell r k v true st ∈ l →
     observe name (style_at (r, k)) w' = Some (Some st).
Proof.
  induction l as [|c l IH]; intros w w' H Hw Hnd r k v st Hin.
  - by apply elem_of_nil in Hin.
  - cbn [for_each] in H. apply bind_ok in H as ([] & w1 & H1 & H2).
    rewrite fmap_cons in Hnd. apply NoDup_cons in Hnd as [Hc Hnd].
    assert (is_Some (wb_target w1 !! name)) as Hw1.
    { pose proof (apply_cell_present env name T c w Hw) as Hp.
      by rewrite H1 in Hp. }
    apply elem_of_cons in Hin as [<-|Hin]; [|by eapply IH].
    apply (apply_cell_style _ _ _ _ _ _ _ H1) in Hw.
    rewrite <- Hw.
    pose proof (preserves_apply_cells
                  (unchanged (observe name (style_at (r, k))))
                  env name T l) as Hp.
    specialize (fun H => Hp H w1). rewrite H2 in Hp. apply Hp.
    intros c' Hc' Hm. split; [same|]. intros g Hg.
    apply tolerates_observe. intros ws. unfold style_at; simpl.
    rewrite Hg; [done|]. intros Heq. apply Hc. cbn [cell_coordinate].
    rewrite Heq. apply list_elem_of_fmap. by exists c'.
Qed.

End Styles.

Section SheetExtras.
Variable env : environment.
Variables (output : path) (wb : Workbook) (total current : nat).
Variable name : pystr.
Variable ws : Worksheet.
Hypothesis source : worksheets wb !! name = Some ws.

(** X15. After a sheet processed with success, the target cell of every
    ordinary source cell that has a style carries that cell's style array
    ([copy_cell_format], called at the end of the second pass for the cell).
    The cells that [ws.rows] yields have distinct coordinates. *)
Theorem styled_cells_copy_style w r k v st :
  let run := process_sheet env output wb total current name w in
  Cell r k v true st ∈ cells ws →
  NoDup (cell_coordinate <$> cells ws) →
  run.1 = Ok tt →
  observe name (style_at (r, k)) run.2 = Some (Some st).
Proof.
  cbv zeta. intros Hin Hnd Hok.
  destruct (process_sheet env output wb total current name w)
    as [res w'] eqn:E. simpl in *. subst res.
  apply (process_sheet_ok _ _ _ _ _ _ _ source) in E
    as (wt & T & w1 & w2 & w3 & w4 & w5
        & Hwt & Hun & Hco & Hap & Hme & Hla & Hsa).
  assert (is_Some (wb_target w2 !! name)) as Hw2.
  { apply present_observe.
    rewrite (preserves_run _ _ _ _ _ (collect_unchanged env name _ ws) Hco).
    rewrite (preserves_run _ _ _ _ _
               (unmerge_unchanged name (fun _ => tt) _ ltac:(done)) Hun).
    apply present_observe. simpl. by eexists. }
  rewrite (preserves_run _ _ _ _ _ (save_unchanged env name _ _) Hsa).
  assert (observe name (style_at (r, k))
            (emit (Print (Msg_saving current total)) w5)
          = observe name (style_at (r, k)) w5) as -> by done.
  rewrite (preserves_run _ _ _ _ _
             (restore_layout_unchanged name (style_at (r, k)) _ _
                ltac:(done) ltac:(done)) Hla).
  rewrite (preserves_run _ _ _ _ _
             (restore_merges_unchanged env name (style_at (r, k)) _
                ltac:(done)) Hme).
  unfold apply_pass, bind, print, modify in Hap.
  rewrite for_each_concat in Hap.
  by apply (apply_cells_styles env name T _ _ _ Hap Hw2 Hnd r k v st).
Qed.


End SheetExtras.

(** ** The first pass *)

Lemma total_cells_texts ws : total_cells ws = length (texts (cells ws)).
Proof.
  unfold total_cells, texts, cells.
  induction (rows ws) as [|row l IH]; [done|].
  cbn [flat_map concat]. rewrite list_sum_app, omap_app, length_app, IH.
  f_equal. clear. induction row as [|c row IH]; [done|].
  cbn [flat_map]. rewrite list_sum_app. simpl omap.
  destruct c as [r k v hs st|r k]; simpl; [|done].
  destruct (translatable v); simpl; by rewrite IH.
Qed.

Section FirstPass.
Variable env : environment.

(** X17. The first pass always returns, and it only reads the source sheet
    and asks the adapter: no file and no sheet of the target changes. Its
    dictionary has an entry for exactly the texts of the sheet, and the
    adapter is entered at most as often as the progress bar's total, the
    number of cells that hold a text. *)
Theorem first_pass_reads_only ws w :
  let run := collect_pass env ws w in
  ∃ T new,
    run.1 = Ok T
    ∧ (∀ s, is_Some (T !! s) ↔ s ∈ texts (cells ws))
    ∧ invocations run.2 = invocations w ++ new
    ∧ (length new <= total_cells ws)%nat
    ∧ fs run.2 = fs w
    ∧ wb_target run.2 = wb_target w.
Proof.
  cbv zeta.
  destruct (collect_pass_spec env ws w)
    as (T & w' & new & E & Hinv & Hn & Hnew & Hdom & _).
  assert (preserves (unchanged fs) (collect_pass env ws)) as Hfs.
  { apply preserves_collect_pass; [exact _|same|same|].
    intros s _. split; same. }
  assert (preserves (unchanged wb_target) (collect_pass env ws)) as Hwb.
  { apply preserves_collect_pass; [exact _|same|same|].
    intros s _. split; same. }
  specialize (Hfs w). specialize (Hwb w). rewrite E in *. exists T, new. split_and!; try done.
  - intros s. rewrite Hdom, lookup_empty. split; [|by right].
    intros [[? ?]|?]; done.
  - rewrite total_cells_texts. apply submseteq_length.
    apply NoDup_submseteq; [done|]. intros s Hs. by apply Hnew.
Qed.

End FirstPass.

(** ** A job that completes *)

Section Completes.
Variable env : environment.

Lemma sheets_loop_appends output wb total sheets :
  preserves (appends (fun _ => True))
    (process_sheets env output wb total sheets).
Proof.
  apply preserves_for_each; [exact _|]. intros [i name] _.
  apply footprint_process_sheet;
    try (intros; first [by apply admits_appends | by apply tolerates_appends]).
  - exact _.
  - intros s. split; [by apply admits_appends|].
    intros w. by apply appends_same_trace.
  - apply preserves_save; [exact _|by apply admits_appends|].
    intros f w. by apply appends_same_trace.
Qed.

Lemma duplicate_succeeds input output bytes w :
  fs w !! input = Some bytes → input ≠ output →
  (∀ n, fault env n (Op_remove output) = None) →
  (∀ n, fault env n (Op_copy2 input output) = None) →
  ∃ w', duplicate env input output w = (Ok true, w')
        ∧ fs w' = <[output := bytes]> (fs w)
        ∧ wb_target w' = wb_target w
        ∧ ∃ evs, trace w' = trace w ++ evs.
Proof.
  intros Hi Hne Hr Hc. destruct (fs w !! output) as [old|] eqn:Ho.
  - rewrite duplicate_present_removed by (by rewrite ?Ho).
    rewrite (duplicate_absent_accepted _ _ _ _ bytes);
      [|simpl; apply lookup_delete_eq
       |simpl; by rewrite lookup_delete_ne|apply Hc].
    eexists. split; [reflexivity|]. simpl.
    split; [by rewrite insert_delete_eq|]. split; [done|].
    rewrite <- !app_assoc. by eexists.
  - rewrite (duplicate_absent_accepted _ _ _ _ bytes) by done.
    eexists. split; [reflexivity|]. simpl. split; [done|]. split; [done|].
    by eexists.
Qed.

Lemma load_workbook_ok {A} (parse : file → exn + A) p bytes a w :
  fs w !! p = Some bytes → parse bytes = inr a →
  load_workbook parse p w = (Ok a, w).
Proof.
  intros Hp Ha. unfold load_workbook, bind, get. simpl.
  by rewrite Hp, Ha.
Qed.

Lemma process_workbook_succeeds input output bi bo wb tb w :
  fs w !! input = Some bi → fs w !! output = Some bo →
  load_source env bi = inr wb → load_target env bo = inr tb →
  writes_accepted env output →
  (∀ name, name ∈ sheetnames wb →
     is_Some (worksheets wb !! name) ∧ is_Some (tb !! name)) →
  ∃ w', process_workbook env input output w = (Ok tt, w')
        ∧ (sheetnames wb ≠ [] →
           fs w' = <[output := serialize env (wb_target w')]> (fs w))
        ∧ (sheetnames wb = [] → fs w' = fs w)
        ∧ ∃ evs, trace w' = trace w ++ evs ++ [Print Msg_completed;
                                               Print (Msg_saved_as output)].
Proof.
  intros Hi Ho Hs Ht Hacc Hsheets. unfold process_workbook.
  rewrite (bind_eq _ _ _ _ _ (load_workbook_ok _ _ _ _ _ Hi Hs)).
  rewrite (bind_eq _ _ _ _ _ (load_workbook_ok _ _ _ _ _ Ho Ht)).
  erewrite bind_eq by reflexivity.
  set (w0 := set_wb_target tb w).
  set (sheets := numbered (sheetnames wb)).
  pose proof (process_sheets_succeed env output wb (length (sheetnames wb))
                Hacc sheets w0) as Hok.
  pose proof (sheets_loop_appends output wb (length (sheetnames wb))
                sheets w0) as (evs & Hevs & _).
  destruct (process_sheets env output wb (length (sheetnames wb)) sheets w0)
    as [res w1] eqn:E. cbn [fst snd] in *.
  rewrite Hok in E; cycle 1.
  { intros i name Hin. apply Hsheets.
    unfold sheets, numbered in Hin. by apply elem_of_zip_r in Hin. }
  rewrite (bind_eq _ _ _ _ _ E). unfold bind, print, modify.
  eexists. split; [reflexivity|]. cbn [fs trace emit].
  split_and!.
  - intros Hne.
    rewrite (process_sheets_checkpoint env output wb _ sheets w0 w1 E); [done|].
    unfold sheets, numbered. destruct (sheetnames wb); done.
  - intros Hnil. unfold sheets in E. rewrite Hnil in E.
    by injection E as <-.
  - exists evs. rewrite Hevs. simpl. by rewrite <- !app_assoc.
Qed.

Variables (input_file : path) (output_file : option path).
Variables (source_lang target_lang : pystr).


End Completes.

(** ** Scenarios and witnesses *)

Import Scenario.

(** The scenario of the specification, as a whole job: "Olá" is translated
    once in Sheet1 and once more in Sheet2, both occurrences in Sheet1 hold
    "Hello", 42 is untouched and the merges are back. *)
Example specification_scenario :
  let w' := (translate_excel (environment_with stub_translator accept_all)
               book_path None (py "pt") (py "en") start).2 in
  invocations w' = [ola; erro; ola]
  ∧ observe sheet1_name (cell_value (1, 1)%positive) w'
    = Some (Some (VStr hello))
  ∧ observe sheet1_name (cell_value (1, 3)%positive) w'
    = Some (Some (VStr hello))
  ∧ observe sheet1_name (cell_value (1, 2)%positive) w'
    = Some (Some (VInt 42))
  ∧ observe sheet1_name t_merged_cells w'
    = Some ["A1:A2"%string; "E1:F1"%string]
  ∧ is_Some (fs w' !! translated_path).
Proof. vm_compute. split_and!; try done. by eexists. Qed.

(** A rejected merge does not stop the job. *)
Example rejected_merge_scenario :
  let run := translate_excel
               (environment_with stub_translator reject_one_merge)
               book_path None (py "pt") (py "en") start in
  run.1 = Ok tt
  ∧ Print (Msg_warning_merge "E1:F1" ValueError) ∈ trace run.2
  ∧ Print Msg_completed ∈ trace run.2
  ∧ observe sheet1_name t_merged_cells run.2 = Some ["A1:A2"%string].
Proof.
  cbv zeta. split_and!.
  - vm_compute. reflexivity.
  - apply (bool_decide_unpack _). vm_compute. exact I.
  - apply (bool_decide_unpack _). vm_compute. exact I.
  - vm_compute. reflexivity.
Qed.


(** The placeholder A2 of Sheet1 is left as it was. *)
Lemma merged_members_never_written_witness :
  observe sheet1_name (fun t => t_cells t !! (2, 1)%positive)
    (process_sheet (environment_with stub_translator accept_all)
       translated_path book 2 1 sheet1_name loaded).2
  = Some (Some {| t_value := VNone; t_style := None |}).
Proof.
  destruct (merged_members_never_written
              (environment_with stub_translator accept_all) translated_path
              book 2 1 sheet1_name sheet1 eq_refl loaded 2 1) as [H _].
  - apply (bool_decide_unpack _). vm_compute. exact I.
  - apply (bool_decide_unpack _). vm_compute. exact I.
  - rewrite H. vm_compute. reflexivity.
Defined.




(** One failure, then success: one backoff sleep, then the fixed delay. *)
Lemma retry_sleep_schedule_witness :
  trace (safe_translate (environment_with flaky_translator accept_all) ola
           3 1 start).2
  = [Remote_translate ola; Sleep (1 * 1); Remote_translate ola; Sleep 1].
Proof.
  destruct (retry_sleep_schedule
              (environment_with flaky_translator accept_all) ola 3 1 1
              (VStr hello) start) as (_ & _ & H).
  - lia.
  - lia.
  - intros i Hi. exists (EnvError 503).
    assert (i = 0%nat) as -> by lia. reflexivity.
  - reflexivity.
  - exact (H eq_refl).
Defined.

(** A rejected save aborts the job; the output file is deleted when the
    removal is accepted and stays when it is rejected. *)
Lemma failure_aborts_job_and_attempts_cleanup_witness :
  (guarded_processing (environment_with stub_translator reject_saves)
     book_path translated_path loaded).1 = Ok tt
  ∧ fs (guarded_processing (environment_with stub_translator reject_saves)
          book_path translated_path loaded).2
    = delete translated_path
        (fs (process_workbook (environment_with stub_translator reject_saves)
               book_path translated_path loaded).2)
  ∧ fs (guarded_processing (environment_with stub_translator locked_output)
          book_path translated_path loaded).2
    = fs (process_workbook (environment_with stub_translator locked_output)
            book_path translated_path loaded).2.
Proof.
  destruct (failure_aborts_job_and_attempts_cleanup
              (environment_with stub_translator reject_saves)
              book_path translated_path loaded (EnvError 28))
    as (H1 & _ & H3 & _ & _).
  { vm_compute. reflexivity. }
  destruct (failure_aborts_job_and_attempts_cleanup
              (environment_with stub_translator locked_output)
              book_path translated_path loaded (EnvError 13))
    as (_ & _ & _ & H4 & _).
  { vm_compute. reflexivity. }
  split; [exact H1|]. split.
  - apply H3.
    + vm_compute. by eexists.
    + reflexivity.
  - apply H4.
    + vm_compute. by eexists.
    + vm_compute. by eexists.
Defined.


(** No attempt with [max_retries] 0 or negative, whatever the delay. *)
Lemma no_retries_returns_text_witness :
  (safe_translate (environment_with stub_translator accept_all) ola 0 1
     start).1 = Ok (VStr ola)
  ∧ trace (safe_translate (environment_with stub_translator accept_all) ola
             (-2) (-1) start).2 = [].
Proof.
  split.
  - apply (no_retries_returns_text
             (environment_with stub_translator accept_all) ola 0 1 start).
    lia.
  - apply (no_retries_returns_text
             (environment_with stub_translator accept_all) ola (-2) (-1)
             start).
    lia.
Defined.

(** C7 as stated fails: the output file is locked, the save of the first
    sheet raises, the handler's removal raises too and is swallowed, and
    the output file is still there when the job ends. *)
Lemma locked_output_survives_cleanup :
  (process_workbook (environment_with stub_translator locked_output)
     book_path translated_path loaded).1 = Raise (EnvError 13)
  ∧ (guarded_processing (environment_with stub_translator locked_output)
       book_path translated_path loaded).1 = Ok tt
  ∧ is_Some
      (fs (guarded_processing (environment_with stub_translator locked_output)
             book_path translated_path loaded).2 !! translated_path)
  ∧ is_Some
      (fs (translate_excel (environment_with stub_translator locked_output)
             book_path None (py "pt") (py "en") start).2 !! translated_path).
Proof. vm_compute. split_and!; try done; by eexists. Qed.


(** "Erro" is tried three times and comes back as it is. *)
Lemma safe_translate_bounded_witness :
  let run := safe_translate (environment_with stub_translator accept_all)
               erro 3 1 start in
  ∃ v (k : nat) evs,
    run.1 = Ok v
    ∧ trace run.2 = trace start ++ evs
    ∧ remote_calls evs = replicate k erro
    ∧ Z.of_nat k <= Z.max 0 3
    ∧ tick run.2 = (tick start + k)%nat
    ∧ fs run.2 = fs start
    ∧ wb_target run.2 = wb_target start
    ∧ (v = VStr erro
       ∨ ∃ n, translate_reply (environment_with stub_translator accept_all)
                n erro = inr v).
Proof.
  apply (safe_translate_bounded
           (environment_with stub_translator accept_all) erro 3 1 start).
  lia.
Defined.

(** A delay of -1: the default three attempts end in a [ValueError], a
    single attempt returns the text. *)
Lemma safe_translate_negative_delay_witness :
  (safe_translate (environment_with stub_translator accept_all) ola 3 (-1)
     start).1 = Raise ValueError
  ∧ (safe_translate (environment_with stub_translator accept_all) ola 1 (-1)
       start).1 = Ok (VStr ola).
Proof.
  split.
  - destruct (safe_translate_negative_delay
                (environment_with stub_translator accept_all) ola 3 (-1)
                start) as [H _]; [lia|].
    apply H. lia.
  - destruct (safe_translate_negative_delay
                (environment_with stub_translator accept_all) ola 1 (-1)
                start) as [_ H]; [lia|].
    apply H. reflexivity.
Defined.

(** The workbook is copied to the output path. *)
Lemma duplicate_copies_bytes_witness :
  let run := duplicate (environment_with stub_translator accept_all)
               book_path translated_path start in
  book_path ≠ translated_path
  ∧ ∃ bytes, fs start !! book_path = Some bytes
             ∧ fs run.2 = <[translated_path := bytes]> (fs start)
             ∧ fs run.2 !! book_path = Some bytes
             ∧ wb_target run.2 = wb_target start.
Proof.
  apply (duplicate_copies_bytes
           (environment_with stub_translator accept_all) book_path
           translated_path start).
  vm_compute. reflexivity.
Defined.

(** Asked to translate a workbook onto itself, the copy step deletes it. *)
Lemma duplicate_loses_output_witness :
  let run := duplicate (environment_with stub_translator accept_all)
               translated_path translated_path loaded in
  run.1 = Ok false
  ∧ fs run.2 = delete translated_path (fs loaded)
  ∧ trace run.2
    = trace loaded ++ [Called (Op_remove translated_path); Sleep 1;
                       Print (Msg_input_not_found translated_path)].
Proof.
  apply (duplicate_loses_output
           (environment_with stub_translator accept_all) translated_path
           translated_path loaded).
  - vm_compute. by eexists.
  - reflexivity.
  - left. reflexivity.
Defined.

(** The translator cannot be made: the exception leaves the job and the
    copy stays. *)
Lemma only_translator_construction_raises_witness :
  let run := translate_excel
               (environment_with stub_translator reject_translator)
               book_path None (py "pt") (py "en") start in
  ∃ n bytes evs,
    reject_translator n (Op_translator (py "pt") (py "en"))
    = Some (EnvError 7)
    ∧ fs start !! book_path = Some bytes
    ∧ fs run.2 = <[translated_path := bytes]> (fs start)
    ∧ trace run.2
      = trace start ++ evs ++ [Print (Msg_reading book_path);
                               Called (Op_translator (py "pt") (py "en"))].
Proof.
  apply (only_translator_construction_raises
           (environment_with stub_translator reject_translator)
           book_path None (py "pt") (py "en") start (EnvError 7)).
  vm_compute. reflexivity.
Defined.


(** No file at the input path: the job stops after the message. *)
Lemma missing_input_stops_job_witness :
  let run := translate_excel (environment_with stub_translator accept_all)
               (py "absent.xlsm") None (py "pt") (py "en") start in
  run.1 = Ok tt
  ∧ wb_target run.2 = wb_target start
  ∧ invocations run.2 = invocations start
  ∧ (fs run.2 = fs start
     ∨ fs run.2 = delete (py "absent_translated.xlsm") (fs start))
  ∧ ∃ evs e,
      trace run.2
      = trace start ++ evs ++ [Print (copy_failure (py "absent.xlsm") e)]
      ∧ remote_calls evs = []
      ∧ Forall (fun ev => ∀ op, ev = Called op →
                          op = Op_taskkill
                          ∨ op = Op_remove (py "absent_translated.xlsm")) evs.
Proof.
  apply (missing_input_stops_job
           (environment_with stub_translator accept_all)
           (py "absent.xlsm") None (py "pt") (py "en") start).
  vm_compute. reflexivity.
Defined.

(** Sheet2 of the target is as it was after Sheet1 is processed. *)
Lemma other_sheets_untouched_witness :
  wb_target after_sheet1 !! sheet2_name = wb_target loaded !! sheet2_name.
Proof.
  apply (other_sheets_untouched
           (environment_with stub_translator accept_all) translated_path
           book 2 1 sheet1_name loaded sheet2_name).
  vm_compute. discriminate.
Defined.


(** A1 of Sheet1 has a style, which the target's A1 gets. *)
Lemma styled_cells_copy_style_witness :
  observe sheet1_name (style_at (1, 1)%positive) after_sheet1
  = Some (Some [1]).
Proof.
  apply (styled_cells_copy_style
           (environment_with stub_translator accept_all) translated_path
           book 2 1 sheet1_name sheet1 eq_refl loaded 1 1 (VStr ola) [1]).
  - apply (bool_decide_unpack _). vm_compute. exact I.
  - apply (bool_decide_unpack _). vm_compute. exact I.
  - vm_compute. reflexivity.
Defined.



